(** * VeRyPy shared utilities ([verypy/util.py]): a shallow embedding

    The module holds the solution codec (giant tour, route list, edge set),
    the objective function, the incumbent comparator, the nearest-neighbour
    index builder and the insertion-ordered set [OrderedDictSet].

    Node ids and vehicle counts are Python integers, modelled as [Z].  The
    values that [objf] and [totald] add up are numbers of the table or
    vector they are given: Python integers, which add exactly, or floats,
    which round at every addition.  A Python list is a [list]; a [set] of
    2-tuples is a [gset (Z * Z)]; a value that may be [None] is an [option];
    a call that may raise returns a [result]. *)

From Stdlib Require Import ZArith Lia.
From Corelib Require Import PrimFloat.
From stdpp Require Import base option list sorting gmap.

#[local] Set Warnings "-clear-no-such-hyp".
#[local] Set Warnings "-inexact-float".

(** ** Numbers *)

(** What [sum] needs of the values it adds: the 0 it starts from and [+]. *)
Class Number (N : Type) := { num_zero : N; num_add : N → N → N }.

(** Python integers. *)
#[global] Instance Z_number : Number Z :=
  {| num_zero := 0%Z; num_add := Z.add |}.

(** Floats: binary64, every addition rounded to nearest.  [sum] starts from
    the integer 0, which a float addition takes for [0.0]. *)
#[global] Instance float_number : Number float :=
  {| num_zero := 0%float; num_add := PrimFloat.add |}.

(** Numbers that add exactly: addition is associative and commutative and 0
    is neutral.  Integers do; floats do not. *)
Class ExactNumber (N : Type) `{Number N} : Prop := {
  num_add_assoc : Assoc (=) (num_add (N:=N));
  num_add_comm : Comm (=) (num_add (N:=N));
  num_add_0_l : LeftId (=) (num_zero (N:=N)) num_add;
  num_add_0_r : RightId (=) (num_zero (N:=N)) num_add
}.

#[global] Instance Z_exact : ExactNumber Z.
Proof. split; [intros x y z|intros x y|intros x|intros x]; simpl; lia. Qed.

(** ** Exceptions *)

Inductive exn := IndexError | KeyError.

Inductive result (A : Type) :=
  | Ok (a : A)
  | Raise (e : exn).
Arguments Ok {A} a.
Arguments Raise {A} e.

Definition result_bind {A B} (f : A → result B) (m : result A) : result B :=
  match m with
  | Ok a => f a
  | Raise e => Raise e
  end.

(** The exception of a result, if it is one. *)
Definition raised {A} (r : result A) : option exn :=
  match r with
  | Ok _ => None
  | Raise e => Some e
  end.

#[global] Instance result_ret : MRet result := λ A a, Ok a.
#[global] Instance result_mbind : MBind result := λ A B f m, result_bind f m.
#[global] Instance result_fmap : FMap result :=
  λ A B f m, result_bind (λ a, Ok (f a)) m.

(** Running a fallible body over a list, left to right, as a [for] loop or a
    generator expression does: the first exception ends the run. *)
Fixpoint for_each {A B} (f : A → result B) (l : list A) : result (list B) :=
  match l with
  | [] => Ok []
  | x :: t => y ← f x; ys ← for_each f t; Ok (y :: ys)
  end.

(** ** The Python builtins the module calls *)

Module Py.

(** [itertools.groupby(l, key)]: the maximal runs of consecutive elements
    with equal key, each with its key, in order. *)
Fixpoint groupby {A K} `{EqDecision K} (key : A → K) (l : list A)
  : list (K * list A) :=
  match l with
  | [] => []
  | x :: t =>
      match groupby key t with
      | (k, g) :: rest =>
          if decide (key x = k) then (k, x :: g) :: rest
          else (key x, [x]) :: (k, g) :: rest
      | [] => [(key x, [x])]
      end
  end.

(** [sum(l)]: additions from 0, left to right. *)
Definition sum {N} `{Number N} (l : list N) : N :=
  fold_left num_add l num_zero.

(** [enumerate(l)] *)
Definition enumerate {A} (l : list A) : list (nat * A) := imap pair l.

(** [sorted(l, key=key)] with integer keys.  Python's sort is stable:
    elements with equal keys keep their order. *)
Fixpoint insert_by {A} (key : A → Z) (x : A) (l : list A) : list A :=
  match l with
  | [] => [x]
  | y :: t => if (key x <=? key y)%Z then x :: l else y :: insert_by key x t
  end.

Definition sorted {A} (key : A → Z) (l : list A) : list A :=
  foldr (insert_by key) [] l.

(** Index normalisation of [a[i]] on a sequence of length [n]: negative
    indices count from the end, anything outside raises [IndexError]. *)
Definition index (n : nat) (i : Z) : result nat :=
  if decide (0 ≤ i < Z.of_nat n)%Z then Ok (Z.to_nat i)
  else if decide (- Z.of_nat n ≤ i < 0)%Z then Ok (Z.to_nat (Z.of_nat n + i))
  else Raise IndexError.

Definition getitem {A} (l : list A) (i : Z) : result A :=
  k ← index (length l) i;
  match l !! k with
  | Some x => Ok x
  | None => Raise IndexError
  end.

End Py.

(** ** Data model *)

Abbreviation node := Z (only parsing).

(** A distance table is a two-dimensional array, given by its rows, which
    all have one length. *)
Abbreviation table := (list (list Z)) (only parsing).

(** All rows have one length, as in any two-dimensional array. *)
Definition rectangular (D : list (list Z)) : Prop :=
  ∃ m, Forall (λ row, length row = m) D.

(** [D[a, b]] *)
Definition table_get {N} (D : list (list N)) (a b : Z) : result N :=
  row ← Py.getitem D a; Py.getitem row b.

(** [is_sorted(l)]: [all(l[i] <= l[i+1] for i in range(len(l)-1))]. *)
Definition is_sorted (l : list Z) : bool :=
  forallb (λ i, (l !!! i <=? l !!! (i + 1)%nat)%Z) (seq 0 (length l - 1)).

(** ** Solution codec *)

(** [without_empty_routes(sol)]: [[n[0] for n in groupby(sol)]]. *)
Definition without_empty_routes (sol : list node) : list node :=
  fst <$> Py.groupby id sol.

(** [sol2routes(sol)]: the guard [not sol or len(sol)<=2], then the groups of
    [groupby(sol, lambda z: z == 0)] whose key is false, each wrapped in
    depot visits. *)
Definition sol2routes (sol : list node) : list (list node) :=
  if bool_decide (sol = []) || (length sol <=? 2) then []
  else
    omap (λ xr : bool * list node,
            if xr.1 then None else Some ([0%Z] ++ xr.2 ++ [0%Z]))
         (Py.groupby (λ z, Z.eqb z 0) sol).

(** One pass of the loop [for i in range(0,len(sol)-1)] of [sol2edgeset]. *)
Definition sol2edgeset_step (sol : list node) (symmetric : bool)
    (edges : gset (node * node)) (i : nat) : gset (node * node) :=
  let j := i + 1 in
  if symmetric || (sol !!! i <? sol !!! j)%Z
  then edges ∪ {[ (sol !!! i, sol !!! j) ]}
  else edges ∪ {[ (sol !!! j, sol !!! i) ]}.

(** [sol2edgeset(sol, symmetric)] *)
Definition sol2edgeset (sol : list node) (symmetric : bool)
    : gset (node * node) :=
  fold_left (sol2edgeset_step sol symmetric) (seq 0 (length sol - 1)) ∅.

(** The pair that the pass for index [i] stores. *)
Definition edge_at (sol : list node) (symmetric : bool) (i : nat)
    : node * node :=
  let j := i + 1 in
  if symmetric || (sol !!! i <? sol !!! j)%Z
  then (sol !!! i, sol !!! j)
  else (sol !!! j, sol !!! i).

(** The body of the loop [for r in routes] of [routes2sol].  The running
    solution starts as [[0]] and only grows, so [sol[-1]] always exists. *)
Definition routes2sol_step (sol : list node) (r : list node) : list node :=
  match r with
  | [] => sol
  | r0 :: r1 =>
      let sol := if (r0 =? 0)%Z then sol ++ r1 else sol ++ r in
      if bool_decide (last sol = Some 0%Z) then sol else sol ++ [0%Z]
  end.

(** [routes2sol(routes)]: [None] on a falsy route list. *)
Definition routes2sol (routes : list (list node)) : option (list node) :=
  match routes with
  | [] => None
  | _ => Some (fold_left routes2sol_step routes [0%Z])
  end.

(** ** Measure *)

(** [objf(sol, D)]: [sum(D[sol[i-1],sol[i]] for i in range(1,len(sol)))]. *)
Definition objf {N} `{Number N} (sol : list node) (D : list (list N))
    : result N :=
  Py.sum <$> for_each (λ i, table_get D (sol !!! (i - 1)) (sol !!! i))
                      (seq 1 (length sol - 1)).

(** [totald(sol, d)]: an absent or empty demand vector gives 0. *)
Definition totald {N} `{Number N} (sol : list node) (d : option (list N))
    : result N :=
  match d with
  | None | Some [] => Ok num_zero
  | Some d => Py.sum <$> for_each (Py.getitem d) sol
  end.

(** [sum(totald(r, d) for r in routes)], the demand of a route list. *)
Definition totald_routes {N} `{Number N} (routes : list (list node))
    (d : option (list N)) : result N :=
  Py.sum <$> for_each (λ r, totald r d) routes.

(** The depot has no demand: the demand vector, when there is one that is
    not empty, holds 0 at index 0. *)
Definition depot_demand_zero {N} `{Number N} (d : option (list N)) : Prop :=
  match d with
  | Some (d0 :: _) => d0 = num_zero
  | _ => True
  end.

(** A table of [n] rows and [n] columns. *)
Definition square {N} (n : nat) (D : list (list N)) : Prop :=
  length D = n ∧ Forall (λ row, length row = n) D.

(** A node that indexes a sequence of length [n], from the front or, when
    negative, from the back. *)
Definition indexes (n : nat) (z : Z) : Prop :=
  (- Z.of_nat n ≤ z < Z.of_nat n)%Z.

(** [sum(objf(r, D) for r in routes)], the objective of a route list. *)
Definition objf_routes {N} `{Number N} (routes : list (list node))
    (D : list (list N)) : result N :=
  Py.sum <$> for_each (λ r, objf r D) routes.

(** The cost of a path by recursion on the path, for the proofs. *)
Fixpoint path_cost {N} `{Number N} (D : list (list N)) (l : list node)
    : result N :=
  match l with
  | [] => Ok num_zero
  | a :: t =>
      match t with
      | [] => Ok num_zero
      | b :: _ => d ← table_get D a b; c ← path_cost D t; Ok (num_add d c)
      end
  end.

(** ** Well-formed solutions and routes *)

(** First and last element are the depot. *)
Definition depot_bounded (l : list node) : Prop :=
  head l = Some 0%Z ∧ last l = Some 0%Z.

(** No two adjacent elements are equal. *)
Fixpoint no_consecutive_duplicates (l : list node) : Prop :=
  match l with
  | [] => True
  | x :: t => head t ≠ Some x ∧ no_consecutive_duplicates t
  end.

(** No two adjacent elements are both the depot. *)
Fixpoint no_double_depot (l : list node) : Prop :=
  match l with
  | [] => True
  | x :: t => ¬ (x = 0%Z ∧ head t = Some 0%Z) ∧ no_double_depot t
  end.

(** A route or solution visits a customer, a node other than the depot;
    the data model calls a route without one empty. *)
Definition has_customer (l : list node) : Prop := Exists (λ z, z ≠ 0%Z) l.

(** A run of customers, and the giant tour of a list of such runs. *)
Definition customer_run (g : list node) : Prop :=
  g ≠ [] ∧ Forall (λ z, z ≠ 0%Z) g.

Definition legs (gs : list (list node)) : list node :=
  gs ≫= (λ g, g ++ [0%Z]).

Definition tour (gs : list (list node)) : list node := 0%Z :: legs gs.

(** The route of a run of customers, as [sol2routes] builds it. *)
Definition closed_route (g : list node) : list node := [0%Z] ++ g ++ [0%Z].

(** ** Comparator *)

(** [is_better_sol(best_f, best_K, sol_f, sol_K, minimize_K)] *)
Definition is_better_sol (best_f best_K sol_f sol_K : option Z)
    (minimize_K : bool) : bool :=
  match sol_f, sol_K with
  | Some sf, Some sk =>
      match best_f, best_K with
      | Some bf, Some bk =>
          if minimize_K
          then (sk <? bk)%Z || ((sk =? bk)%Z && (sf <? bf)%Z)
          else (sf <? bf)%Z
      | _, _ => true
      end
  | _, _ => false
  end.

(** ** Neighbour index *)

(** [produce_nn_list(D)]: row [i] of the result is
    [sorted(enumerate(D[i,:]), key=itemgetter(1))]. *)
Definition produce_nn_list (D : table) : result (list (list (nat * Z))) :=
  let n := length D in
  for_each (λ i, row ← Py.getitem D (Z.of_nat i);
                 Ok (Py.sorted snd (Py.enumerate row)))
           (seq 0 n).

(** The order of a neighbour list: ascending distance, and ascending node
    index among equal distances. *)
Definition nn_lt (p q : nat * Z) : Prop :=
  (p.2 < q.2)%Z ∨ (p.2 = q.2 ∧ p.1 < q.1).

(** ** Ordered set *)

Module OrderedDictSet.
Section defs.
Context {A : Type} `{EqDecision A}.

(** The wrapped dict maps every key to [None], so it is given by its keys
    in insertion order.  [d[k] = None] keeps the place of a key that is
    present and appends a new one. *)
Definition dict_setitem (d : list A) (k : A) : list A :=
  if decide (k ∈ d) then d else d ++ [k].

(** [dict.fromkeys(collection, None)] *)
Definition dict_fromkeys (collection : list A) : list A :=
  fold_left dict_setitem collection [].

(** [del d[k]]: [KeyError] when the key is absent. *)
Definition dict_delitem (d : list A) (k : A) : result (list A) :=
  if decide (k ∈ d) then Ok (filter (λ x, x ≠ k) d) else Raise KeyError.

(** [d.pop(k, None)] *)
Definition dict_pop (d : list A) (k : A) : list A :=
  filter (λ x, x ≠ k) d.

Record t := { ods : list A; keylist : option (list A) }.

(** [OrderedDictSet(collection)] *)
Definition init (collection : list A) : t :=
  {| ods := dict_fromkeys collection; keylist := None |}.

Definition remove (self : t) (element : A) : result t :=
  d ← dict_delitem (ods self) element;
  Ok {| ods := d; keylist := None |}.

(** [if self.keylist:] holds for a list that is neither [None] nor empty. *)
Definition add (self : t) (element : A) : t :=
  {| ods := dict_setitem (ods self) element;
     keylist := match keylist self with
                | Some (k :: kl) => Some ((k :: kl) ++ [element])
                | other => other
                end |}.

Definition difference_update (self : t) (collection : list A) : t :=
  {| ods := fold_left dict_pop collection (ods self); keylist := None |}.

(** [self[index]]: the index list is built when there is none, before the
    read that may raise, so the object changes also when the read fails. *)
Definition getitem (self : t) (index : Z) : result A * t :=
  let kl := match keylist self with
            | None => ods self
            | Some kl => kl
            end in
  (Py.getitem kl index, {| ods := ods self; keylist := Some kl |}).

(** The index list, when there is one, lists the keys of the dict. *)
Definition coherent (self : t) : Prop :=
  keylist self = None ∨ keylist self = Some (ods self).

(** [list(iter(self))] *)
Definition iter (self : t) : list A := ods self.

(** [len(self)] *)
Definition len (self : t) : nat := length (ods self).

(** *** Runs of [add] and [remove] calls *)

Inductive op := Add (x : A) | Remove (x : A).

#[export] Instance op_eq_dec : EqDecision op.
Proof. solve_decision. Defined.

Definition apply_op (self : t) (o : op) : result t :=
  match o with
  | Add x => Ok (add self x)
  | Remove x => remove self x
  end.

Fixpoint run (ops : list op) (self : t) : result t :=
  match ops with
  | [] => Ok self
  | o :: rest => s ← apply_op self o; run rest s
  end.

(** The calls an object has seen: its construction from [collection]
    inserts the elements one by one. *)
Definition history (collection : list A) (ops : list op) : list op :=
  (Add <$> collection) ++ ops.

(** [x] is in the set after the calls [h]: the last call on [x] is an
    insertion. *)
Definition present (h : list op) (x : A) : bool :=
  fold_left (λ b o,
               match o with
               | Add y => if decide (x = y) then true else b
               | Remove y => if decide (x = y) then false else b
               end) h false.

(** The property as the specification words it: the still-present
    elements in the order of their first insertion ever, and the number
    of distinct elements ever added minus the number of those removed. *)
Fixpoint first_insertions (before h : list op) : list A :=
  match h with
  | [] => []
  | o :: rest =>
      match o with
      | Add x => if decide (Add x ∈ before) then [] else [x]
      | Remove _ => []
      end ++ first_insertions (before ++ [o]) rest
  end.

Definition first_insertion_order (h : list op) : list A :=
  filter (λ x, present h x = true) (first_insertions [] h).

Definition ever_added (h : list op) : list A := first_insertions [] h.

Definition removed_of (h : list op) : list A :=
  filter (λ x, Remove x ∈ h) (ever_added h).

Definition distinct_added_minus_removed (h : list op) : nat :=
  length (ever_added h) - length (removed_of h).

(** The order the code keeps: an insertion counts when it finds the
    element absent, and stands when no later call removes the element. *)
Fixpoint standing_insertions (before h : list op) : list A :=
  match h with
  | [] => []
  | o :: rest =>
      match o with
      | Add x =>
          if present before x then []
          else if decide (Remove x ∈ rest) then [] else [x]
      | Remove _ => []
      end ++ standing_insertions (before ++ [o]) rest
  end.

Definition standing_insertion_order (h : list op) : list A :=
  standing_insertions [] h.

(** Insertions that found the element absent, and removals. *)
Fixpoint fresh_insertions (before h : list op) : nat :=
  match h with
  | [] => 0
  | o :: rest =>
      match o with
      | Add x => if present before x then 0 else 1
      | Remove _ => 0
      end + fresh_insertions (before ++ [o]) rest
  end.

Definition is_remove (o : op) : bool :=
  match o with
  | Remove _ => true
  | Add _ => false
  end.

Definition removals (h : list op) : nat :=
  length (filter (λ o, is_remove o = true) h).

End defs.
Arguments t : clear implicits.
Arguments op : clear implicits.
End OrderedDictSet.

(** * Properties *)

(** ** Lists *)

Lemma filter_all {A} (P : A → Prop) `{!∀ x, Decision (P x)} (l : list A) :
  Forall P l → filter P l = l.
Proof.
  induction 1 as [|x l Hx Hl IH]; [done|].
  by rewrite filter_cons, decide_True, IH.
Qed.

(** ** Comparator *)

(** C4: [is_better_sol] is [False] when the candidate's objective value or
    vehicle count is [None]; otherwise [True] when the incumbent's is;
    otherwise, with [minimize_K], [True] exactly when the candidate has
    strictly fewer vehicles, or as many and a strictly lower objective
    value; and without [minimize_K], [True] exactly when the candidate's
    objective value is strictly lower, whatever the vehicle counts. *)
Theorem is_better_sol_contract
    (best_f best_K sol_f sol_K : option Z) (minimize_K : bool) :
  (sol_f = None ∨ sol_K = None →
     is_better_sol best_f best_K sol_f sol_K minimize_K = false) ∧
  (∀ sf sk : Z, sol_f = Some sf → sol_K = Some sk →
     (best_f = None ∨ best_K = None →
        is_better_sol best_f best_K sol_f sol_K minimize_K = true) ∧
     (∀ bf bk : Z, best_f = Some bf → best_K = Some bk →
        (minimize_K = true →
           (is_better_sol best_f best_K sol_f sol_K minimize_K = true
            ↔ (sk < bk ∨ (sk = bk ∧ sf < bf))%Z)) ∧
        (minimize_K = false →
           (is_better_sol best_f best_K sol_f sol_K minimize_K = true
            ↔ (sf < bf)%Z)))).
Proof.
  split.
  - intros [-> | ->]; [reflexivity | by destruct sol_f].
  - intros sf sk -> ->. split.
    + intros [-> | ->]; [reflexivity | by destruct best_f].
    + intros bf bk -> ->. split; intros ->; simpl.
      * rewrite orb_true_iff, andb_true_iff, !Z.ltb_lt, Z.eqb_eq. reflexivity.
      * apply Z.ltb_lt.
Qed.

(** The example of the specification: fewer vehicles beat a lower cost. *)
Lemma is_better_sol_contract_witness :
  is_better_sol (Some 100%Z) (Some 3%Z) (Some 150%Z) (Some 2%Z) true = true
  ↔ (2 < 3 ∨ (2 = 3 ∧ 150 < 100))%Z.
Proof.
  apply (is_better_sol_contract
           (Some 100%Z) (Some 3%Z) (Some 150%Z) (Some 2%Z) true);
    reflexivity.
Defined.

(** ** Assembly of a route list *)

Section routes2sol_facts.
Implicit Types sol r : list node.
Implicit Types routes : list (list node).

Lemma routes2sol_step_head sol r :
  sol ≠ [] → head (routes2sol_step sol r) = head sol.
Proof.
  intros Hsol. destruct sol as [|a sol]; [done|].
  destruct r as [|r0 r1]; [done|]. unfold routes2sol_step.
  destruct (r0 =? 0)%Z; case_bool_decide; reflexivity.
Qed.

Lemma routes2sol_step_nonempty sol r :
  sol ≠ [] → routes2sol_step sol r ≠ [].
Proof.
  intros Hsol Hnil. apply (f_equal head) in Hnil.
  rewrite routes2sol_step_head in Hnil by done. by destruct sol.
Qed.

Lemma routes2sol_step_last sol r :
  last sol = Some 0%Z → last (routes2sol_step sol r) = Some 0%Z.
Proof.
  intros Hsol. destruct r as [|r0 r1]; [done|]. unfold routes2sol_step.
  destruct (r0 =? 0)%Z; case_bool_decide; try done; apply last_snoc.
Qed.

Lemma routes2sol_loop_bounds routes sol :
  head sol = Some 0%Z → last sol = Some 0%Z →
  head (fold_left routes2sol_step routes sol) = Some 0%Z
  ∧ last (fold_left routes2sol_step routes sol) = Some 0%Z.
Proof.
  revert sol. induction routes as [|r routes IH]; intros sol Hh Hl; [done|].
  simpl. apply IH.
  - rewrite routes2sol_step_head; [done|]. by destruct sol.
  - by apply routes2sol_step_last.
Qed.

End routes2sol_facts.

(** C8: [routes2sol] of the empty route list is [None], not a sequence; of
    a non-empty route list it is a sequence that starts with the depot 0,
    and that ends with 0 whenever one of the routes is non-empty. *)
Theorem routes2sol_contract :
  routes2sol [] = None ∧
  ∀ routes : list (list node), routes ≠ [] →
    ∃ sol, routes2sol routes = Some sol
           ∧ head sol = Some 0%Z
           ∧ (Exists (λ r, r ≠ []) routes → last sol = Some 0%Z).
Proof.
  split; [reflexivity|]. intros routes Hne.
  destruct routes as [|r routes]; [done|].
  eexists. split; [reflexivity|].
  destruct (routes2sol_loop_bounds (r :: routes) [0%Z]) as [Hh Hl]; try done.
Qed.

Lemma routes2sol_contract_witness :
  ∃ sol, routes2sol [[3; 5]; []; [0; 2; 0]]%Z = Some sol
         ∧ head sol = Some 0%Z
         ∧ (Exists (λ r, r ≠ []) [[3; 5]; []; [0; 2; 0]]%Z
            → last sol = Some 0%Z).
Proof.
  apply (proj2 routes2sol_contract [[3; 5]; []; [0; 2; 0]]%Z). discriminate.
Defined.

(** The running solution of [routes2sol] is never empty, so the read of
    [sol[-1]] never raises. *)
Lemma routes2sol_loop_nonempty (routes : list (list node)) (sol : list node) :
  sol ≠ [] → fold_left routes2sol_step routes sol ≠ [].
Proof.
  revert sol. induction routes as [|r routes IH]; intros sol Hsol; [done|].
  simpl. by apply IH, routes2sol_step_nonempty.
Qed.

(** ** Runs of [groupby] *)

Section groupby_facts.
Context {A K : Type} `{EqDecision K} (key : A → K).

Lemma groupby_cons x (t : list A) :
  Py.groupby key (x :: t) =
    match Py.groupby key t with
    | (k, g) :: rest =>
        if decide (key x = k) then (k, x :: g) :: rest
        else (key x, [x]) :: (k, g) :: rest
    | [] => [(key x, [x])]
    end.
Proof. reflexivity. Qed.

(** The key of the first group is the key of the first element. *)
Lemma groupby_head (l : list A) k g rest :
  Py.groupby key l = (k, g) :: rest → ∃ x, head l = Some x ∧ key x = k.
Proof.
  destruct l as [|x t]; [done|]. rewrite groupby_cons.
  destruct (Py.groupby key t) as [|[k' g'] rest']; [|case_decide];
    intros [= <- _ _]; eauto.
Qed.

(** A non-empty run of one key, followed by nothing or by another key, is
    the first group. *)
Lemma groupby_run k (g t : list A) :
  g ≠ [] → Forall (λ x, key x = k) g →
  (∀ y, head t = Some y → key y ≠ k) →
  Py.groupby key (g ++ t) = (k, g) :: Py.groupby key t.
Proof.
  induction g as [|x g IH]; [done|].
  intros _ [Hx Hg]%Forall_cons Ht. destruct g as [|x2 g].
  - simpl app. rewrite groupby_cons.
    destruct (Py.groupby key t) as [|[k' g'] rest] eqn:E; [by rewrite Hx|].
    apply groupby_head in E as (y & Hy & Hk).
    rewrite decide_False; [by rewrite Hx|].
    rewrite Hx. intros <-. by eapply Ht.
  - change ((x :: x2 :: g) ++ t) with (x :: ((x2 :: g) ++ t)).
    rewrite groupby_cons, IH by done. by rewrite decide_True.
Qed.

End groupby_facts.

(** ** Decomposition into routes *)

(** C9: whatever the input sequence, every route that [sol2routes] returns
    begins with 0 and ends with 0, and a sequence of length at most 2 gives
    the empty route list. *)
Theorem sol2routes_depot_bounded (sol : list node) :
  (∀ r, r ∈ sol2routes sol → head r = Some 0%Z ∧ last r = Some 0%Z)
  ∧ (length sol ≤ 2 → sol2routes sol = []).
Proof.
  split.
  - intros r. unfold sol2routes.
    destruct (bool_decide (sol = []) || (length sol <=? 2)).
    + by intros ?%elem_of_nil.
    + intros ([x g] & _ & Hr)%list_elem_of_omap. simpl in Hr.
      destruct x; [done|]. injection Hr as <-. split; [done|].
      by rewrite last_cons, last_snoc.
  - intros Hlen. unfold sol2routes.
    apply Nat.leb_le in Hlen. rewrite Hlen. by rewrite orb_true_r.
Qed.

Lemma sol2routes_depot_bounded_witness :
  (∀ r, r ∈ sol2routes [7; 0; 4; 4; 9]%Z
        → head r = Some 0%Z ∧ last r = Some 0%Z)
  ∧ sol2routes [7; 4]%Z = [].
Proof.
  split.
  - apply (proj1 (sol2routes_depot_bounded [7; 0; 4; 4; 9]%Z)).
  - apply (proj2 (sol2routes_depot_bounded [7; 4]%Z)). simpl. lia.
Defined.

(** C2: on [[0,3,3,0]] the route list of [sol2routes] still holds node 3
    twice; [without_empty_routes] is the function that collapses the run. *)
Theorem sol2routes_keeps_repeated_customer :
  sol2routes [0; 3; 3; 0]%Z = [[0; 3; 3; 0]%Z]
  ∧ without_empty_routes [0; 3; 3; 0]%Z = [0; 3; 0]%Z.
Proof. split; reflexivity. Qed.

(** ** Giant tours of customer runs *)

Section tour_facts.
Implicit Types (g sol t : list node) (gs : list (list node)).

Lemma legs_cons g gs : legs (g :: gs) = g ++ 0%Z :: legs gs.
Proof. unfold legs. simpl. by rewrite <- (assoc_L (++)). Qed.

Lemma head_legs gs y :
  Forall customer_run gs → head (legs gs) = Some y → y ≠ 0%Z.
Proof.
  intros Hgs. destruct Hgs as [|g gs [Hne Hg] _]; [done|].
  rewrite legs_cons. destruct g as [|x g]; [done|]. simpl.
  intros [= <-]. by apply Forall_cons in Hg as [? _].
Qed.

(** The groups of a tour are its customer runs, separated by single
    depot visits. *)
Lemma groupby_legs gs :
  Forall customer_run gs →
  omap (λ xr : bool * list node,
          if xr.1 then None else Some ([0%Z] ++ xr.2 ++ [0%Z]))
       (Py.groupby (λ z, Z.eqb z 0) (legs gs))
  = closed_route <$> gs.
Proof.
  induction 1 as [|g gs [Hne Hg] Hgs IH]; [done|].
  rewrite legs_cons, (groupby_run _ false).
  - change (0%Z :: legs gs) with ([0%Z] ++ legs gs).
    rewrite (groupby_run _ true); [simpl; f_equal; apply IH|done|by repeat constructor|].
    intros y Hy%head_legs; [|done]. by intros ?%Z.eqb_eq.
  - done.
  - eapply Forall_impl; [done|]. intros z Hz. simpl. by apply Z.eqb_neq.
  - by intros y [= <-].
Qed.

Lemma sol2routes_tour gs :
  Forall customer_run gs → sol2routes (tour gs) = closed_route <$> gs.
Proof.
  intros Hgs. destruct gs as [|g gs]; [done|].
  pose proof (groupby_legs _ Hgs) as Hgr.
  assert (Hguard : bool_decide (tour (g :: gs) = [])
                   || (length (tour (g :: gs)) <=? 2) = false).
  { rewrite bool_decide_false by done. apply Nat.leb_gt.
    unfold tour. rewrite legs_cons.
    apply Forall_cons in Hgs as [[Hne _] _]. destruct g; [done|].
    simpl. rewrite length_app. simpl. lia. }
  unfold sol2routes. rewrite Hguard.
  unfold tour. change (0%Z :: legs (g :: gs)) with ([0%Z] ++ legs (g :: gs)).
  rewrite (groupby_run _ true); [exact Hgr|done|by repeat constructor|].
  intros y Hy%head_legs; [|done]. by intros ?%Z.eqb_eq.
Qed.

Lemma routes2sol_step_closed sol g :
  routes2sol_step sol (closed_route g) = sol ++ g ++ [0%Z].
Proof.
  unfold routes2sol_step, closed_route. simpl.
  rewrite bool_decide_true; [done|].
  by rewrite !(assoc_L (++)), last_snoc.
Qed.

Lemma routes2sol_loop_closed gs sol :
  fold_left routes2sol_step (closed_route <$> gs) sol = sol ++ legs gs.
Proof.
  revert sol. induction gs as [|g gs IH]; intros sol.
  - simpl. by rewrite (right_id_L [] (++)).
  - rewrite fmap_cons.
    change (fold_left routes2sol_step (closed_route <$> gs)
              (routes2sol_step sol (closed_route g)) = sol ++ legs (g :: gs)).
    rewrite routes2sol_step_closed, IH, legs_cons.
    by rewrite <- !(assoc_L (++)).
Qed.

Lemma routes2sol_tour gs :
  gs ≠ [] → routes2sol (closed_route <$> gs) = Some (tour gs).
Proof.
  intros Hne. destruct gs as [|g gs]; [done|].
  unfold routes2sol. rewrite fmap_cons. f_equal.
  rewrite <- fmap_cons. apply routes2sol_loop_closed.
Qed.

(** A sequence without doubled depot visits that ends at the depot is a
    tour, or the legs of one when it does not start at the depot. *)
Lemma legs_or_tour t :
  no_double_depot t → (t = [] ∨ last t = Some 0%Z) →
  ∃ gs, Forall customer_run gs
        ∧ (head t ≠ Some 0%Z → t = legs gs)
        ∧ (head t = Some 0%Z → t = tour gs).
Proof.
  induction t as [|x t IH]; intros Hdd Hlast.
  { exists []. by repeat split. }
  destruct Hdd as [Hx Hdd].
  assert (Ht : t = [] ∨ last t = Some 0%Z).
  { destruct t as [|y t]; [by left|right].
    destruct Hlast as [|Hl]; [done|]. by rewrite last_cons_cons in Hl. }
  destruct (IH Hdd Ht) as (gs & Hgs & Hlegs & Htour).
  destruct (decide (x = 0%Z)) as [->|Hx0].
  - exists gs. split; [done|]. split; [done|]. intros _.
    unfold tour. f_equal. apply Hlegs. naive_solver.
  - destruct (decide (head t = Some 0%Z)) as [Hh|Hh].
    + exists ([x] :: gs). split.
      { constructor; [|done]. split; [done|by repeat constructor]. }
      split; [|by intros [= ->]]. intros _.
      rewrite legs_cons. simpl. f_equal. by apply Htour.
    + destruct Hlast as [|Hl]; [done|].
      destruct Ht as [->|Ht]; [by injection Hl|].
      specialize (Hlegs Hh). destruct gs as [|g gs].
      { subst t. done. }
      exists ((x :: g) :: gs). apply Forall_cons in Hgs as [[Hne Hg] Hgs].
      split.
      { constructor; [|done]. split; [done|by constructor]. }
      split; [|by intros [= ->]]. intros _.
      rewrite legs_cons. simpl. f_equal. by rewrite Hlegs, legs_cons.
Qed.

Lemma depot_bounded_tour sol :
  depot_bounded sol → no_double_depot sol →
  ∃ gs, Forall customer_run gs ∧ sol = tour gs.
Proof.
  intros [Hh Hl] Hdd.
  destruct (legs_or_tour sol Hdd) as (gs & Hgs & _ & Htour); [by right|].
  exists gs. auto.
Qed.

Lemma no_consecutive_duplicates_depot t :
  no_consecutive_duplicates t → no_double_depot t.
Proof.
  induction t as [|x t IH]; [done|]. intros [Hx Ht]. split; [|by apply IH].
  intros [-> ?]. done.
Qed.

(** The round trip of a well-formed solution with a customer. *)
Lemma sol2routes_routes2sol sol :
  depot_bounded sol → no_double_depot sol → has_customer sol →
  routes2sol (sol2routes sol) = Some sol.
Proof.
  intros Hb Hdd Hc. destruct (depot_bounded_tour sol Hb Hdd) as (gs & Hgs & ->).
  rewrite sol2routes_tour by done. apply routes2sol_tour.
  intros ->. unfold has_customer, tour in Hc. simpl in Hc.
  by apply Exists_cons in Hc as [?|?%Exists_nil].
Qed.

Lemma no_double_depot_app sol t :
  no_double_depot (sol ++ t)
  ↔ no_double_depot sol ∧ no_double_depot t
    ∧ ¬ (last sol = Some 0%Z ∧ head t = Some 0%Z).
Proof.
  induction sol as [|x sol IH]; [simpl; naive_solver|].
  destruct sol as [|y sol].
  - simpl. destruct t; naive_solver.
  - change ((x :: y :: sol) ++ t) with (x :: (y :: sol) ++ t).
    rewrite last_cons_cons.
    change (no_double_depot (x :: (y :: sol) ++ t))
      with (¬ (x = 0%Z ∧ Some y = Some 0%Z) ∧ no_double_depot ((y :: sol) ++ t)).
    rewrite IH. simpl. naive_solver.
Qed.

Lemma routes2sol_step_no_double_depot sol r :
  no_double_depot sol → last sol = Some 0%Z → no_double_depot r →
  no_double_depot (routes2sol_step sol r).
Proof.
  intros Hsol Hlast Hr. destruct r as [|r0 r1]; [done|].
  unfold routes2sol_step. destruct Hr as [Hr0 Hr1].
  assert (Hnew : no_double_depot
                   (if (r0 =? 0)%Z then sol ++ r1 else sol ++ r0 :: r1)).
  { destruct (Z.eqb_spec r0 0) as [->|Hne];
      apply no_double_depot_app; simpl; naive_solver. }
  case_bool_decide as Hl; [done|].
  apply no_double_depot_app. simpl. naive_solver.
Qed.

Lemma routes2sol_step_customer sol r :
  has_customer sol ∨ has_customer r → has_customer (routes2sol_step sol r).
Proof.
  unfold has_customer. intros Hc. destruct r as [|r0 r1].
  { destruct Hc as [|?%Exists_nil]; done. }
  unfold routes2sol_step.
  assert (Hnew : Exists (λ z, z ≠ 0%Z)
                   (if (r0 =? 0)%Z then sol ++ r1 else sol ++ r0 :: r1)).
  { destruct (Z.eqb_spec r0 0) as [->|Hne]; apply Exists_app.
    - destruct Hc as [|[?|?]%Exists_cons]; [by left|done|by right].
    - destruct Hc; [by left|by right]. }
  case_bool_decide; [done|]. apply Exists_app. by left.
Qed.

Lemma routes2sol_loop_well_formed routes : ∀ sol,
  no_double_depot sol → last sol = Some 0%Z →
  Forall no_double_depot routes →
  no_double_depot (fold_left routes2sol_step routes sol)
  ∧ (has_customer sol ∨ Exists has_customer routes →
     has_customer (fold_left routes2sol_step routes sol)).
Proof.
  induction routes as [|r routes IH]; intros sol Hsol Hlast Hrs.
  { split; [done|]. by intros [|?%Exists_nil]. }
  apply Forall_cons in Hrs as [Hr Hrs]. simpl.
  destruct (IH (routes2sol_step sol r)) as [Hdd Hc]; [| |done|].
  - by apply routes2sol_step_no_double_depot.
  - by apply routes2sol_step_last.
  - split; [done|]. intros Hcust. apply Hc.
    destruct Hcust as [|[|]%Exists_cons];
      [left|left|by right]; apply routes2sol_step_customer; auto.
Qed.

(** Assembly, decomposition and assembly again give the first assembly,
    when no route doubles the depot and some route has a customer. *)
Lemma routes2sol_round_trip routes :
  Forall no_double_depot routes → Exists has_customer routes →
  ∃ sol, routes2sol routes = Some sol
         ∧ routes2sol (sol2routes sol) = Some sol.
Proof.
  intros Hdd Hc. destruct routes as [|r routes]; [by apply Exists_nil in Hc|].
  eexists. split; [reflexivity|].
  destruct (routes2sol_loop_well_formed (r :: routes) [0%Z])
    as [Hdd' Hc']; [simpl; naive_solver|done|done|].
  apply sol2routes_routes2sol; [|done|by apply Hc'; right].
  apply routes2sol_loop_bounds; done.
Qed.

End tour_facts.

(** C6: for a route list whose routes all have a customer (are non-empty
    in the sense of the data model) and no consecutive duplicates, the
    assembled solution, decomposed by [sol2routes] and assembled again by
    [routes2sol], is reproduced; and [routes2sol(sol2routes(s))] is [s] for
    every depot-bounded [s] with a customer and no consecutive
    duplicates. *)
Theorem routes2sol_sol2routes_round_trip :
  (∀ routes : list (list node),
     Forall (λ r, has_customer r ∧ no_consecutive_duplicates r) routes →
     routes2sol routes ≫= (λ sol, routes2sol (sol2routes sol))
     = routes2sol routes)
  ∧ (∀ sol : list node,
       depot_bounded sol → has_customer sol → no_consecutive_duplicates sol →
       routes2sol (sol2routes sol) = Some sol).
Proof.
  split.
  - intros routes Hrs. destruct routes as [|r routes]; [done|].
    destruct (routes2sol_round_trip (r :: routes)) as (sol & Hsol & Hrt).
    + eapply Forall_impl; [done|]. intros r' [_ Hr'].
      by apply no_consecutive_duplicates_depot.
    + apply Exists_cons_hd. by apply Forall_cons in Hrs as [[? _] _].
    + rewrite Hsol. simpl. done.
  - intros sol Hb Hc Hnd. apply sol2routes_routes2sol; [done| |done].
    by apply no_consecutive_duplicates_depot.
Qed.

Lemma routes2sol_sol2routes_round_trip_witness :
  routes2sol [[3; 5]; [0; 2; 0]]%Z ≫= (λ sol, routes2sol (sol2routes sol))
  = routes2sol [[3; 5]; [0; 2; 0]]%Z
  ∧ routes2sol (sol2routes [0; 3; 5; 0; 2; 0]%Z) = Some [0; 3; 5; 0; 2; 0]%Z.
Proof.
  split.
  - apply (proj1 routes2sol_sol2routes_round_trip [[3; 5]; [0; 2; 0]]%Z).
    apply Forall_cons. split.
    { split; [apply Exists_cons_hd; lia|simpl; repeat split; discriminate]. }
    apply Forall_cons. split; [|apply Forall_nil_2].
    split; [apply Exists_cons_tl, Exists_cons_hd; lia|].
    simpl. repeat split; discriminate.
  - apply (proj2 routes2sol_sol2routes_round_trip [0; 3; 5; 0; 2; 0]%Z).
    + split; reflexivity.
    + apply Exists_cons_tl, Exists_cons_hd. lia.
    + simpl. repeat split; discriminate.
Defined.

(** A route that is only the depot is a non-empty list, yet empty as a
    route: its assembly [[0]] decomposes into no route at all. *)
Lemma routes2sol_depot_only :
  routes2sol [[0%Z]] = Some [0%Z] ∧ sol2routes [0%Z] = []
  ∧ routes2sol (sol2routes [0%Z]) = None.
Proof. repeat split. Qed.


(** ** Objective *)

Section objf_facts.
Context {N : Type} `{ExactNumber N}.
Variable D : list (list N).
Implicit Types (l g sol : list node) (gs : list (list node)).
Implicit Types (c d z : N) (ds : list N).

#[local] Existing Instances num_add_assoc num_add_comm num_add_0_l num_add_0_r.

Lemma fold_left_add ds z :
  fold_left num_add ds z = num_add z (fold_left num_add ds num_zero).
Proof.
  revert z. induction ds as [|e ds IH]; intros z; simpl.
  - by rewrite (right_id num_zero num_add).
  - rewrite (IH (num_add z e)), (IH (num_add num_zero e)).
    by rewrite (left_id num_zero num_add), (assoc num_add).
Qed.

Lemma sum_cons d ds : Py.sum (d :: ds) = num_add d (Py.sum ds).
Proof.
  unfold Py.sum. simpl. by rewrite fold_left_add, (left_id num_zero num_add).
Qed.

Lemma for_each_seq_shift {B} (f f' : nat → result B) n : ∀ k,
  (∀ i, k ≤ i → f (S i) = f' i) →
  for_each f (seq (S k) n) = for_each f' (seq k n).
Proof.
  induction n as [|n IH]; intros k Hf; [done|].
  simpl. rewrite Hf by lia. rewrite (IH (S k)); [done|].
  intros i Hi. apply Hf. lia.
Qed.

Lemma path_cost_cons_cons (a b : node) (t : list node) :
  path_cost D (a :: b :: t)
  = d ← table_get D a b; c ← path_cost D (b :: t); Ok (num_add d c).
Proof. reflexivity. Qed.

(** With exact numbers the generator of [objf] walks the path edge by
    edge. *)
Lemma objf_path_cost sol : objf sol D = path_cost D sol.
Proof.
  induction sol as [|a [|b t] IH]; [done..|].
  rewrite path_cost_cons_cons, <- IH. unfold objf.
  change (length (a :: b :: t) - 1) with (S (length t)).
  replace (length (b :: t) - 1) with (length t) by (simpl; lia).
  change (seq 1 (S (length t))) with (1 :: seq 2 (length t)).
  change (for_each ?f (1 :: ?l)) with (y ← f 1; ys ← for_each f l; Ok (y :: ys)).
  rewrite (for_each_seq_shift _
             (λ i, table_get D ((b :: t) !!! (i - 1)) ((b :: t) !!! i))).
  - change ((a :: b :: t) !!! (1 - 1)) with a.
    change ((a :: b :: t) !!! 1) with b.
    destruct (table_get D a b) as [d|e]; [|done]. simpl.
    destruct (for_each _ _) as [ds|e]; [|done]. simpl.
    by rewrite sum_cons.
  - intros [|i] Hi; [lia|]. simpl. by rewrite Nat.sub_0_r.
Qed.

(** Costs add up along a path cut at one of its nodes. *)
Lemma path_cost_app l (m : node) (t : list node) :
  path_cost D (l ++ m :: t)
  = c1 ← path_cost D (l ++ [m]); c2 ← path_cost D (m :: t);
    Ok (num_add c1 c2).
Proof.
  induction l as [|a [|b l] IH].
  - change (path_cost D ([] ++ [m])) with (@Ok N num_zero). simpl app.
    destruct (path_cost D (m :: t)) as [c|e]; [|done]. simpl.
    by rewrite (left_id num_zero num_add).
  - change ([a] ++ m :: t) with (a :: m :: t).
    change ([a] ++ [m]) with (a :: [m]).
    rewrite !path_cost_cons_cons. change (path_cost D [m]) with (@Ok N num_zero).
    generalize (path_cost D (m :: t)). intros [c2|e2];
      destruct (table_get D a m) as [d|e]; simpl; try done.
    by rewrite (right_id num_zero num_add).
  - change ((a :: b :: l) ++ m :: t) with (a :: b :: (l ++ m :: t)).
    change ((a :: b :: l) ++ [m]) with (a :: b :: (l ++ [m])).
    rewrite !path_cost_cons_cons.
    change (b :: l ++ m :: t) with ((b :: l) ++ m :: t).
    change (b :: l ++ [m]) with ((b :: l) ++ [m]).
    rewrite IH.
    generalize (path_cost D (m :: t)) (path_cost D ((b :: l) ++ [m])).
    intros [c2|e2] [c1|e1]; destruct (table_get D a b) as [d|e];
      simpl; try done.
    by rewrite (assoc num_add).
Qed.

(** The objective of a tour is the sum over its routes. *)
Lemma objf_tour gs :
  objf (tour gs) D = objf_routes (closed_route <$> gs) D.
Proof.
  rewrite objf_path_cost. unfold objf_routes.
  induction gs as [|g gs IH]; [done|].
  unfold tour. rewrite legs_cons, fmap_cons.
  change (0%Z :: g ++ 0%Z :: legs gs) with ((0%Z :: g) ++ 0%Z :: legs gs).
  rewrite path_cost_app. fold (tour gs). rewrite IH.
  change (for_each ?f (?r :: ?l)) with (y ← f r; ys ← for_each f l; Ok (y :: ys)).
  cbv beta. rewrite objf_path_cost.
  change ((0%Z :: g) ++ [0%Z]) with (closed_route g).
  destruct (path_cost D (closed_route g)) as [c|e]; [|done]. simpl.
  destruct (for_each _ _) as [cs|e]; [|done]. simpl.
  by rewrite sum_cons.
Qed.

(** C7, as the code has it: for a depot-bounded solution without
    consecutive duplicates and a distance table of numbers that add exactly
    (integers), [objf] of the solution is the sum of [objf] over the routes
    of [sol2routes]; a lookup outside the table raises on both sides. *)
Theorem objf_additive sol :
  depot_bounded sol → no_consecutive_duplicates sol →
  objf sol D = objf_routes (sol2routes sol) D.
Proof.
  intros Hb Hnd.
  destruct (depot_bounded_tour sol Hb) as (gs & Hgs & ->).
  { by apply no_consecutive_duplicates_depot. }
  rewrite sol2routes_tour by done. apply objf_tour.
Qed.

End objf_facts.

Lemma objf_additive_witness :
  objf [0; 1; 2; 0; 2; 0]%Z [[0; 4; 7]; [5; 0; 3]; [6; 2; 0]]%Z
  = objf_routes (sol2routes [0; 1; 2; 0; 2; 0]%Z)
                [[0; 4; 7]; [5; 0; 3]; [6; 2; 0]]%Z.
Proof.
  apply (objf_additive [[0; 4; 7]; [5; 0; 3]; [6; 2; 0]]%Z
                       [0; 1; 2; 0; 2; 0]%Z).
  - split; reflexivity.
  - simpl. repeat split; discriminate.
Defined.

(** C7, as the specification words it, fails on a table of floats: [sum]
    rounds at every addition, and the objective of the whole tour groups
    the additions differently from the sum over the routes.  With
    [D[0,1] = D[1,0] = 0.1] and [D[0,2] = D[2,0] = 0.2], the tour
    [[0,2,0,1,0]] costs [((0.2+0.2)+0.1)+0.1] and its routes
    [(0.2+0.2)+(0.1+0.1)], which differ in the last bit. *)
Lemma objf_additive_float_refuted :
  ∃ (D : list (list float)) (sol : list node) (whole routes : float),
    depot_bounded sol ∧ no_consecutive_duplicates sol
    ∧ objf sol D = Ok whole
    ∧ objf_routes (sol2routes sol) D = Ok routes
    ∧ PrimFloat.ltb whole routes = true
    ∧ objf sol D ≠ objf_routes (sol2routes sol) D.
Proof.
  exists [[0; 0.1; 0.2]; [0.1; 0; 0.3]; [0.2; 0.3; 0]]%float,
         [0; 2; 0; 1; 0]%Z.
  eexists. eexists. split; [split; reflexivity|].
  split; [simpl; repeat split; discriminate|].
  split; [vm_compute; reflexivity|]. split; [vm_compute; reflexivity|].
  split; [vm_compute; reflexivity|].
  intros Heq.
  apply (f_equal (λ r, match r with
                       | Ok x => PrimFloat.eqb x 0.6%float
                       | Raise _ => false
                       end)) in Heq.
  vm_compute in Heq. discriminate.
Qed.

(** ** Edge set *)

Lemma sol2edgeset_step_edge_at sol symmetric edges i :
  sol2edgeset_step sol symmetric edges i
  = edges ∪ {[ edge_at sol symmetric i ]}.
Proof.
  unfold sol2edgeset_step, edge_at. simpl.
  by destruct (symmetric || _).
Qed.

Lemma sol2edgeset_loop_elem_of sol symmetric (l : list nat) edges p :
  p ∈ fold_left (sol2edgeset_step sol symmetric) l edges
  ↔ p ∈ edges ∨ ∃ i, i ∈ l ∧ p = edge_at sol symmetric i.
Proof.
  revert edges. induction l as [|i l IH]; intros edges; simpl.
  - split; [by left|]. intros [|(i & ?%elem_of_nil & _)]; done.
  - rewrite IH, sol2edgeset_step_edge_at. set_solver.
Qed.

(** The edge set holds exactly the pairs stored for the positions of the
    sequence that have a successor. *)
Lemma sol2edgeset_elem_of sol symmetric p :
  p ∈ sol2edgeset sol symmetric
  ↔ ∃ i, S i < length sol ∧ p = edge_at sol symmetric i.
Proof.
  unfold sol2edgeset. rewrite sol2edgeset_loop_elem_of.
  setoid_rewrite elem_of_seq. split.
  - intros [?%elem_of_empty|(i & Hi & ->)]; [done|]. exists i. split; [lia|done].
  - intros (i & Hi & ->). right. exists i. split; [lia|done].
Qed.

(** With [symmetric] set every adjacent pair is stored in the direction it
    is met; without it every pair is stored smaller node first. *)
Lemma edge_at_symmetric sol i :
  edge_at sol true i = (sol !!! i, sol !!! (i + 1)).
Proof. reflexivity. Qed.

Lemma edge_at_asymmetric sol i :
  edge_at sol false i
  = (Z.min (sol !!! i) (sol !!! (i + 1)), Z.max (sol !!! i) (sol !!! (i + 1))).
Proof.
  unfold edge_at. simpl. destruct (Z.ltb_spec (sol !!! i) (sol !!! (i + 1))).
  - by rewrite Z.min_l, Z.max_r by lia.
  - by rewrite Z.min_r, Z.max_l by lia.
Qed.

(** C1: on [[0,2,1,0]] the symmetric mode stores the pair (2,1) as it is met
    and not as (1,2), and the asymmetric mode stores (1,2) and (0,1), the
    reversed pairs. *)
Theorem sol2edgeset_modes_swapped :
  sol2edgeset [0; 2; 1; 0]%Z true = {[ (0, 2); (2, 1); (1, 0) ]}%Z
  ∧ sol2edgeset [0; 2; 1; 0]%Z false = {[ (0, 2); (1, 2); (0, 1) ]}%Z.
Proof. split; vm_compute; reflexivity. Qed.

(** ** Ordered set *)

Import OrderedDictSet.

Section ordered_set_facts.
Context {A : Type} `{EqDecision A}.
Implicit Types (d : list A) (s : t A) (h before : list (op A)) (x y : A).

Lemma dict_setitem_elem_of d x y : y ∈ dict_setitem d x ↔ y = x ∨ y ∈ d.
Proof.
  unfold dict_setitem. case_decide.
  - naive_solver.
  - rewrite elem_of_app, list_elem_of_singleton. naive_solver.
Qed.

Lemma dict_setitem_NoDup d x : NoDup d → NoDup (dict_setitem d x).
Proof.
  intros Hd. unfold dict_setitem. case_decide; [done|].
  apply NoDup_app. split_and!; [done| |apply NoDup_singleton].
  intros y Hy ->%list_elem_of_singleton. done.
Qed.

(** The keys of a dict are distinct: every set that is reachable from a
    construction keeps its elements without repetition. *)
Lemma dict_fromkeys_NoDup (collection : list A) :
  NoDup (dict_fromkeys collection).
Proof.
  unfold dict_fromkeys. generalize (NoDup_nil_2 (A:=A)).
  generalize (@nil A). induction collection as [|x c IH]; intros d Hd; [done|].
  simpl. by apply IH, dict_setitem_NoDup.
Qed.

Lemma run_NoDup h : ∀ s s', NoDup (ods s) → run h s = Ok s' → NoDup (ods s').
Proof.
  induction h as [|o h IH]; intros s s' Hs Hrun.
  - by injection Hrun as <-.
  - simpl in Hrun. destruct o as [x|x]; simpl in Hrun.
    + eapply IH; [|done]. by apply dict_setitem_NoDup.
    + unfold remove, dict_delitem in Hrun.
      destruct (decide (x ∈ ods s)); [|done]. simpl in Hrun.
      eapply IH; [|done]. by apply NoDup_filter.
Qed.

Lemma length_filter_ne d x :
  NoDup d → x ∈ d → S (length (filter (λ y, y ≠ x) d)) = length d.
Proof.
  induction 1 as [|a d Ha Hd IH]; intros Hx; [by apply elem_of_nil in Hx|].
  rewrite filter_cons. destruct (decide (a = x)) as [->|Hne].
  - rewrite decide_False by naive_solver. simpl. f_equal.
    f_equal. clear IH Hd Hx. induction d as [|b d IH]; [done|].
    rewrite filter_cons, decide_True by set_solver.
    f_equal. apply IH. set_solver.
  - rewrite decide_True by done. simpl. f_equal. apply IH. set_solver.
Qed.

Lemma present_snoc h o x :
  present (h ++ [o]) x =
    match o with
    | Add y => if decide (x = y) then true else present h x
    | Remove y => if decide (x = y) then false else present h x
    end.
Proof. unfold present. by rewrite fold_left_app. Qed.

Lemma run_app h1 h2 s : run (h1 ++ h2) s = run h1 s ≫= run h2.
Proof.
  revert s. induction h1 as [|o h1 IH]; intros s; [reflexivity|].
  simpl. destruct (apply_op s o) as [s1|e]; simpl; [apply IH|done].
Qed.

(** Construction is insertion of the elements into the empty set. *)
Lemma run_insertions_from (collection : list A) d :
  run (Add <$> collection) {| ods := d; keylist := None |}
  = Ok {| ods := fold_left dict_setitem collection d; keylist := None |}.
Proof.
  revert d. induction collection as [|x c IH]; intros d; [reflexivity|].
  simpl. apply IH.
Qed.

Lemma run_insertions (collection : list A) :
  run (Add <$> collection) (init []) = Ok (init collection).
Proof. apply run_insertions_from. Qed.

Lemma removals_Add x h : removals (Add x :: h) = removals h.
Proof. reflexivity. Qed.

Lemma removals_Remove x h : removals (Remove x :: h) = S (removals h).
Proof. reflexivity. Qed.

Lemma filter_not_removed_Add x h (l : list A) :
  filter (λ y, Remove y ∉ Add x :: h) l = filter (λ y, Remove y ∉ h) l.
Proof.
  apply list_filter_iff. intros y. rewrite not_elem_of_cons. naive_solver.
Qed.

Lemma filter_not_removed_Remove x h (l : list A) :
  filter (λ y, Remove y ∉ Remove x :: h) l
  = filter (λ y, Remove y ∉ h) (filter (λ y, y ≠ x) l).
Proof.
  rewrite list_filter_filter. apply list_filter_iff. intros y.
  rewrite not_elem_of_cons. naive_solver.
Qed.

(** The state after a run: what the run leaves of the elements it found,
    then its standing insertions. *)
Lemma run_ods h : ∀ before s s',
  NoDup (ods s) →
  (∀ x, x ∈ ods s ↔ present before x = true) →
  run h s = Ok s' →
  ods s' = filter (λ x, Remove x ∉ h) (ods s) ++ standing_insertions before h
  ∧ length (ods s') + removals h
    = length (ods s) + fresh_insertions before h.
Proof.
  induction h as [|o h IH]; intros before s s' Hnd Hin Hrun.
  - injection Hrun as <-. unfold removals. simpl.
    rewrite (right_id_L [] (++)). split; [|lia].
    symmetry. apply filter_all, Forall_forall. intros x _. apply not_elem_of_nil.
  - simpl in Hrun. destruct o as [x|x]; simpl in Hrun.
    + destruct (IH (before ++ [Add x]) (add s x) s') as [Ho Hl]; [..|done|].
      { by apply dict_setitem_NoDup. }
      { intros y. simpl. rewrite dict_setitem_elem_of, present_snoc, Hin.
        case_decide; naive_solver. }
      simpl in Ho, Hl. rewrite removals_Add, filter_not_removed_Add.
      rewrite Hl, Ho. simpl. clear Ho Hl IH Hrun.
      unfold dict_setitem. destruct (decide (x ∈ ods s)) as [Hx|Hx].
      * apply Hin in Hx. rewrite Hx. split; [done|lia].
      * assert (present before x = false) as ->.
        { destruct (present before x) eqn:E; [|done]. by apply Hin in E. }
        rewrite filter_app, <- (assoc_L (++)), length_app. simpl.
        split; [|lia]. do 2 f_equal.
        rewrite filter_cons, filter_nil. by repeat case_decide.
    + unfold remove, dict_delitem in Hrun.
      destruct (decide (x ∈ ods s)) as [Hx|Hx]; [|done]. simpl in Hrun.
      destruct (IH (before ++ [Remove x])
                  {| ods := filter (λ y, y ≠ x) (ods s); keylist := None |} s')
        as [Ho Hl]; [..|done|].
      { by apply NoDup_filter. }
      { intros y. simpl. rewrite list_elem_of_filter, present_snoc, Hin.
        case_decide; naive_solver. }
      simpl in Ho, Hl. rewrite removals_Remove, filter_not_removed_Remove.
      split; [done|].
      rewrite <- (length_filter_ne (ods s) x) by done. simpl. lia.
Qed.

(** C10: [add] of an element that is already in the set leaves the
    iteration order and the length as they were: the element keeps its
    place and is not listed twice. *)
Theorem add_present_unchanged s x :
  x ∈ iter s → iter (add s x) = iter s ∧ len (add s x) = len s.
Proof.
  unfold iter, len, add, dict_setitem. simpl. intros Hx.
  by rewrite decide_True.
Qed.

(** C5, as the code has it: after a construction and any run of [add] and
    [remove] calls that raises no [KeyError], iteration lists the elements
    in the order of their standing insertions (for each element still
    present, its first insertion since it was last absent), and the length
    is the number of insertions that found their element absent minus the
    number of removals. *)
Theorem iteration_order_standing_insertions
    (collection : list A) (ops : list (op A)) s :
  run ops (init collection) = Ok s →
  iter s = standing_insertion_order (history collection ops)
  ∧ len s = fresh_insertions [] (history collection ops)
            - removals (history collection ops).
Proof.
  intros Hrun.
  assert (Hall : run (history collection ops) (init []) = Ok s).
  { unfold history. by rewrite run_app, run_insertions. }
  apply (run_ods _ []) in Hall as [Ho Hl].
  - unfold iter, len, standing_insertion_order. split; [done|].
    simpl in Hl. lia.
  - apply NoDup_nil_2.
  - intros x. simpl. split; [by intros ?%elem_of_nil|done].
Qed.

End ordered_set_facts.

Lemma add_present_unchanged_witness :
  iter (add (init [4; 7; 9]%Z) 7%Z) = iter (init [4; 7; 9]%Z)
  ∧ len (add (init [4; 7; 9]%Z) 7%Z) = len (init [4; 7; 9]%Z).
Proof.
  apply (add_present_unchanged (init [4; 7; 9]%Z) 7%Z).
  vm_compute. apply list_elem_of_In. simpl. tauto.
Defined.

Lemma iteration_order_standing_insertions_witness :
  iter {| ods := [2; 1]%Z; keylist := None |}
  = standing_insertion_order
      (history [1]%Z [Add 2%Z; Remove 1%Z; Add 1%Z; Add 2%Z])
  ∧ len {| ods := [2; 1]%Z; keylist := None |}
    = fresh_insertions [] (history [1]%Z [Add 2%Z; Remove 1%Z; Add 1%Z; Add 2%Z])
      - removals (history [1]%Z [Add 2%Z; Remove 1%Z; Add 1%Z; Add 2%Z]).
Proof.
  apply (iteration_order_standing_insertions
           [1]%Z [Add 2%Z; Remove 1%Z; Add 1%Z; Add 2%Z]).
  reflexivity.
Defined.

(** C5, as the specification words it, fails once a removed element is
    added again: it then iterates at its new place, and is counted. *)
Lemma first_insertion_order_refuted :
  ∃ s, run [Add 1%Z; Add 2%Z; Remove 1%Z; Add 1%Z] (init []) = Ok s
       ∧ iter s = [2; 1]%Z
       ∧ first_insertion_order
           (history [] [Add 1%Z; Add 2%Z; Remove 1%Z; Add 1%Z]) = [1; 2]%Z
       ∧ len s = 2
       ∧ distinct_added_minus_removed
           (history [] [Add 1%Z; Add 2%Z; Remove 1%Z; Add 1%Z]) = 1.
Proof. eexists. repeat split; reflexivity. Qed.


(** ** Neighbour index *)

Section sorted_facts.
Context {A : Type} (key : A → Z).

Lemma insert_by_perm x (l : list A) : Py.insert_by key x l ≡ₚ x :: l.
Proof.
  induction l as [|y l IH]; [done|]. simpl.
  destruct (key x <=? key y)%Z; [done|]. by rewrite IH, Permutation_swap.
Qed.

Lemma sorted_perm (l : list A) : Py.sorted key l ≡ₚ l.
Proof.
  induction l as [|x l IH]; [done|]. simpl.
  by rewrite insert_by_perm, IH.
Qed.

End sorted_facts.

Lemma insert_by_nn_lt (x : nat * Z) (l : list (nat * Z)) :
  Forall (λ q, x.1 < q.1) l →
  StronglySorted nn_lt l → StronglySorted nn_lt (Py.insert_by snd x l).
Proof.
  induction l as [|y l IH]; intros Hx Hl; simpl.
  { repeat constructor. }
  apply StronglySorted_cons in Hl as [Hy Hl].
  apply Forall_cons in Hx as [Hxy Hx].
  destruct (Z.leb_spec x.2 y.2) as [Hle|Hgt].
  - apply StronglySorted_cons. split; [|by apply StronglySorted_cons].
    assert (nn_lt x y) by (unfold nn_lt; lia).
    constructor; [done|].
    rewrite Forall_forall in Hx, Hy |- *. intros q Hq.
    specialize (Hx q Hq). specialize (Hy q Hq). unfold nn_lt in *. lia.
  - apply StronglySorted_cons. split; [|by apply IH].
    rewrite insert_by_perm. constructor; [unfold nn_lt; lia|done].
Qed.

Lemma sorted_nn_lt (l : list (nat * Z)) :
  StronglySorted (λ p q, p.1 < q.1) l → StronglySorted nn_lt (Py.sorted snd l).
Proof.
  induction l as [|x l IH]; intros Hl; simpl; [constructor|].
  apply StronglySorted_cons in Hl as [Hx Hl].
  apply insert_by_nn_lt; [|by apply IH]. by rewrite sorted_perm.
Qed.

Lemma imap_StronglySorted {A B} (R : B → B → Prop) (l : list A) :
  ∀ f : nat → A → B,
    (∀ i j x y, i < j → R (f i x) (f j y)) → StronglySorted R (imap f l).
Proof.
  induction l as [|a l IH]; intros f Hf; [constructor|].
  rewrite imap_cons. apply StronglySorted_cons. split.
  - apply Forall_forall. intros q (i & y & -> & _)%elem_of_lookup_imap_1.
    apply Hf. lia.
  - apply IH. intros i j x y Hij. apply Hf. lia.
Qed.

Lemma enumerate_increasing {A} (l : list A) :
  StronglySorted (λ p q : nat * A, p.1 < q.1) (Py.enumerate l).
Proof. apply imap_StronglySorted. by intros. Qed.

Lemma getitem_middle {A} (pre : list A) x post :
  Py.getitem (pre ++ x :: post) (Z.of_nat (length pre)) = Ok x.
Proof.
  unfold Py.getitem, Py.index. rewrite decide_True.
  - simpl. by rewrite Nat2Z.id, list_lookup_middle.
  - rewrite length_app. simpl. lia.
Qed.

Lemma produce_nn_list_rows_from (pre D : table) :
  for_each (λ i, row ← Py.getitem (pre ++ D) (Z.of_nat i);
                 Ok (Py.sorted snd (Py.enumerate row)))
           (seq (length pre) (length D))
  = Ok ((λ row, Py.sorted snd (Py.enumerate row)) <$> D).
Proof.
  revert pre. induction D as [|row D IH]; intros pre; [done|].
  simpl. rewrite getitem_middle. simpl.
  specialize (IH (pre ++ [row])). rewrite length_app, Nat.add_1_r in IH.
  rewrite <- (assoc_L (++)) in IH. simpl in IH. by rewrite IH.
Qed.

(** Every row is indexed in range, so the run is that of a map. *)
Lemma produce_nn_list_rows (D : table) :
  produce_nn_list D = Ok ((λ row, Py.sorted snd (Py.enumerate row)) <$> D).
Proof. apply (produce_nn_list_rows_from []). Qed.

(** C3, as the code has it: [produce_nn_list] makes no squareness check.
    On every two-dimensional table, square or not, it returns normally one
    neighbour list per row: the (index, distance) pairs of that row in
    ascending order of distance, index order among equal distances. *)
Theorem produce_nn_list_total (D : table) :
  rectangular D →
  ∃ NN_D, produce_nn_list D = Ok NN_D
          ∧ length NN_D = length D
          ∧ ∀ i row, D !! i = Some row →
              ∃ nn, NN_D !! i = Some nn
                    ∧ nn ≡ₚ Py.enumerate row
                    ∧ StronglySorted nn_lt nn.
Proof.
  intros _. eexists. split; [apply produce_nn_list_rows|].
  split; [by rewrite length_fmap|].
  intros i row Hi. exists (Py.sorted snd (Py.enumerate row)).
  split; [by rewrite list_lookup_fmap, Hi|].
  split; [apply sorted_perm|apply sorted_nn_lt, enumerate_increasing].
Qed.

Lemma produce_nn_list_total_witness :
  ∃ NN_D, produce_nn_list [[0; 5; 2]; [5; 0; 1]]%Z = Ok NN_D
          ∧ length NN_D = 2
          ∧ ∀ i row, [[0; 5; 2]; [5; 0; 1]]%Z !! i = Some row →
              ∃ nn, NN_D !! i = Some nn
                    ∧ nn ≡ₚ Py.enumerate row
                    ∧ StronglySorted nn_lt nn.
Proof.
  apply (produce_nn_list_total [[0; 5; 2]; [5; 0; 1]]%Z).
  exists 3. repeat constructor.
Defined.

(** C3, as the specification words it, fails on a table of 2 rows by 3
    columns: the call returns a neighbour index. *)
Lemma produce_nn_list_accepts_non_square :
  ∃ D NN_D, rectangular D
            ∧ Exists (λ row, length row ≠ length D) D
            ∧ produce_nn_list D = Ok NN_D.
Proof.
  exists [[0; 5; 2]; [5; 0; 1]]%Z. eexists. split; [|split; [|reflexivity]].
  - exists 3. repeat constructor.
  - apply Exists_cons_hd. simpl. lia.
Qed.

(** ** The examples of the specification *)

Example routes2sol_example :
  routes2sol [[0; 3; 5; 0]; [0; 2; 0]]%Z = Some [0; 3; 5; 0; 2; 0]%Z.
Proof. reflexivity. Qed.

Example sol2routes_example : sol2routes [0; 0; 4; 0]%Z = [[0; 4; 0]%Z].
Proof. reflexivity. Qed.

Example objf_example :
  objf [0; 1; 2; 0; 2; 0]%Z [[0; 4; 7]; [5; 0; 3]; [6; 2; 0]]%Z
  = Ok (4 + 3 + 6 + 7 + 6)%Z.
Proof. reflexivity. Qed.

(** * Further properties *)

(** ** Comparator as an order *)

(** No solution is better than itself. *)
Theorem is_better_sol_irreflexive (f K : option Z) (minimize_K : bool) :
  is_better_sol f K f K minimize_K = false.
Proof.
  destruct f as [f|], K as [K|], minimize_K; simpl; try done.
  - rewrite !Z.ltb_irrefl. by rewrite andb_false_r.
  - apply Z.ltb_irrefl.
Qed.

Ltac comparator_cases :=
  repeat match goal with
         | |- context [(?a <? ?b)%Z] => destruct (Z.ltb_spec a b)
         | |- context [(?a =? ?b)%Z] => destruct (Z.eqb_spec a b)
         | H : context [(?a <? ?b)%Z] |- _ => destruct (Z.ltb_spec a b)
         | H : context [(?a =? ?b)%Z] |- _ => destruct (Z.eqb_spec a b)
         end;
  simpl in *; try done; try lia.

(** X1: When the candidate beats the incumbent, the incumbent does not beat the
    candidate. *)
Theorem is_better_sol_asymmetric
    (best_f best_K sol_f sol_K : option Z) (minimize_K : bool) :
  is_better_sol best_f best_K sol_f sol_K minimize_K = true →
  is_better_sol sol_f sol_K best_f best_K minimize_K = false.
Proof.
  destruct best_f, best_K, sol_f, sol_K, minimize_K; simpl; try done;
    intros H; comparator_cases.
Qed.

Lemma is_better_sol_asymmetric_witness :
  is_better_sol (Some 150%Z) (Some 2%Z) (Some 100%Z) (Some 3%Z) true = false.
Proof.
  apply (is_better_sol_asymmetric
           (Some 100%Z) (Some 3%Z) (Some 150%Z) (Some 2%Z) true).
  reflexivity.
Defined.

(** X2: Being better is transitive in each mode, absent values included. *)
Theorem is_better_sol_transitive
    (f1 K1 f2 K2 f3 K3 : option Z) (minimize_K : bool) :
  is_better_sol f1 K1 f2 K2 minimize_K = true →
  is_better_sol f2 K2 f3 K3 minimize_K = true →
  is_better_sol f1 K1 f3 K3 minimize_K = true.
Proof.
  destruct f1, K1, f2, K2, f3, K3, minimize_K; simpl; try done;
    intros H12 H23; comparator_cases.
Qed.

Lemma is_better_sol_transitive_witness :
  is_better_sol (Some 100%Z) (Some 3%Z) (Some 90%Z) (Some 2%Z) true = true.
Proof.
  apply (is_better_sol_transitive
           (Some 100%Z) (Some 3%Z) (Some 150%Z) (Some 2%Z)
           (Some 90%Z) (Some 2%Z) true); reflexivity.
Defined.

(** X3: Two valid solutions compare one way or the other unless they agree on
    what the mode looks at: vehicle count and cost when minimising
    vehicles, cost alone otherwise. *)
Theorem is_better_sol_trichotomy (f1 K1 f2 K2 : Z) :
  (is_better_sol (Some f1) (Some K1) (Some f2) (Some K2) true = true
   ∨ is_better_sol (Some f2) (Some K2) (Some f1) (Some K1) true = true
   ∨ (K1 = K2 ∧ f1 = f2))
  ∧ (is_better_sol (Some f1) (Some K1) (Some f2) (Some K2) false = true
     ∨ is_better_sol (Some f2) (Some K2) (Some f1) (Some K1) false = true
     ∨ f1 = f2).
Proof.
  simpl. split; comparator_cases; auto.
Qed.

(** ** Sortedness test *)

Lemma forallb_seq_shift (f f' : nat → bool) n : ∀ k,
  (∀ i, f (S i) = f' i) → forallb f (seq (S k) n) = forallb f' (seq k n).
Proof.
  induction n as [|n IH]; intros k Hf; [done|].
  simpl. by rewrite Hf, (IH (S k)).
Qed.

Lemma is_sorted_cons_cons (a b : Z) (t : list Z) :
  is_sorted (a :: b :: t) = (a <=? b)%Z && is_sorted (b :: t).
Proof.
  unfold is_sorted.
  change (length (a :: b :: t) - 1) with (S (length t)).
  replace (length (b :: t) - 1) with (length t) by (simpl; lia).
  change (seq 0 (S (length t))) with (0 :: seq 1 (length t)).
  simpl forallb. f_equal. by apply forallb_seq_shift.
Qed.

Lemma is_sorted_true (l : list Z) :
  is_sorted l = true ↔ StronglySorted Z.le l.
Proof.
  induction l as [|a [|b t] IH].
  - split; [constructor|done].
  - split; [repeat constructor|done].
  - rewrite is_sorted_cons_cons, andb_true_iff, IH, Z.leb_le.
    rewrite (StronglySorted_cons _ (b :: t) a), Forall_cons. split.
    + intros [Hab Hbt]. split; [|done]. split; [done|].
      apply StronglySorted_cons in Hbt as [Hb _].
      eapply Forall_impl; [done|]. simpl. intros. lia.
    + naive_solver.
Qed.

(** X4: [is_sorted] is [True] exactly on the lists in which every element is
    at most every later one; lists with fewer than two elements pass. *)
Theorem is_sorted_StronglySorted (l : list Z) :
  (is_sorted l = true ↔ StronglySorted Z.le l)
  ∧ (length l ≤ 1 → is_sorted l = true).
Proof.
  split; [apply is_sorted_true|].
  destruct l as [|a [|b t]]; simpl; [done..|lia].
Qed.

(** ** Groups of [groupby] *)

Section groupby_groups.
Context {A K : Type} `{EqDecision K} (key : A → K).

Lemma groupby_nil (l : list A) : Py.groupby key l = [] → l = [].
Proof.
  destruct l as [|x t]; [done|]. rewrite groupby_cons.
  destruct (Py.groupby key t) as [|[k g] rest]; [done|]. by case_decide.
Qed.

(** Every group is non-empty and its elements have its key. *)
Lemma groupby_groups (l : list A) :
  Forall (λ kg, kg.2 ≠ [] ∧ Forall (λ x, key x = kg.1) kg.2)
         (Py.groupby key l).
Proof.
  induction l as [|x t IH]; [constructor|]. rewrite groupby_cons.
  destruct (Py.groupby key t) as [|[k g] rest].
  { repeat constructor. done. }
  apply Forall_cons in IH as [[Hne Hg] Hrest]. simpl in *.
  case_decide as Hk.
  - constructor; [|done]. simpl. split; [done|]. by constructor.
  - constructor; [simpl; split; [done|by repeat constructor]|].
    by constructor.
Qed.

(** The groups, one after the other, are the sequence. *)
Lemma groupby_concat (l : list A) : concat ((Py.groupby key l).*2) = l.
Proof.
  induction l as [|x t IH]; [done|]. rewrite groupby_cons.
  destruct (Py.groupby key t) as [|[k g] rest].
  { symmetry in IH. simpl in IH. by subst t. }
  case_decide; simpl in *; by rewrite IH.
Qed.

End groupby_groups.

(** ** Collapsing runs of equal nodes *)

Section without_empty_routes_facts.
Implicit Types (sol t : list node) (x : node).

Lemma without_empty_routes_cons x t :
  without_empty_routes (x :: t) =
    if decide (head t = Some x) then without_empty_routes t
    else x :: without_empty_routes t.
Proof.
  unfold without_empty_routes. rewrite groupby_cons.
  destruct (Py.groupby id t) as [|[k g] rest] eqn:E.
  - apply groupby_nil in E as ->. by rewrite decide_False.
  - apply groupby_head in E as (y & Hy & <-). rewrite Hy. unfold id.
    destruct (decide (x = y)) as [->|Hne].
    + by rewrite decide_True.
    + rewrite decide_False; [done|]. by intros [= ->].
Qed.

Lemma without_empty_routes_head sol :
  head (without_empty_routes sol) = head sol.
Proof.
  induction sol as [|x t IH]; [done|]. rewrite without_empty_routes_cons.
  case_decide as Hx; [|done]. by rewrite IH.
Qed.

Lemma without_empty_routes_last sol :
  last (without_empty_routes sol) = last sol.
Proof.
  induction sol as [|x t IH]; [done|]. rewrite without_empty_routes_cons.
  case_decide as Hx.
  - rewrite IH. destruct t; [done|]. by rewrite last_cons_cons.
  - rewrite !last_cons, IH. done.
Qed.

Lemma without_empty_routes_no_consecutive_duplicates sol :
  no_consecutive_duplicates (without_empty_routes sol).
Proof.
  induction sol as [|x t IH]; [done|]. rewrite without_empty_routes_cons.
  case_decide as Hx; [done|]. simpl. by rewrite without_empty_routes_head.
Qed.

(** X5: The result of [without_empty_routes] repeats no node twice in a row;
    the function returns its argument exactly when the argument has no
    consecutive duplicates, and so it is idempotent. *)
Theorem without_empty_routes_fixpoint sol :
  no_consecutive_duplicates (without_empty_routes sol)
  ∧ (without_empty_routes sol = sol ↔ no_consecutive_duplicates sol)
  ∧ without_empty_routes (without_empty_routes sol) = without_empty_routes sol.
Proof.
  split; [apply without_empty_routes_no_consecutive_duplicates|].
  assert (Hfix : ∀ l, no_consecutive_duplicates l → without_empty_routes l = l).
  { induction l as [|x t IH]; [done|]. intros [Hx Ht].
    rewrite without_empty_routes_cons, decide_False by done.
    by rewrite IH. }
  split; [split|].
  - intros <-. apply without_empty_routes_no_consecutive_duplicates.
  - apply Hfix.
  - apply Hfix, without_empty_routes_no_consecutive_duplicates.
Qed.

Lemma without_empty_routes_sublist sol :
  without_empty_routes sol `sublist_of` sol.
Proof.
  induction sol as [|x t IH]; [done|]. rewrite without_empty_routes_cons.
  case_decide; [by apply sublist_cons|by apply sublist_skip].
Qed.

(** X6: The result is a subsequence of the argument that visits the same nodes
    and has the same first and last node. *)
Theorem without_empty_routes_same_nodes sol :
  without_empty_routes sol `sublist_of` sol
  ∧ (∀ x, x ∈ without_empty_routes sol ↔ x ∈ sol)
  ∧ head (without_empty_routes sol) = head sol
  ∧ last (without_empty_routes sol) = last sol.
Proof.
  split; [apply without_empty_routes_sublist|]. split; [|split].
  - intros x. split.
    { intros Hx. eapply elem_of_sublist; [done|].
      apply without_empty_routes_sublist. }
    induction sol as [|y t IH]; [done|]. rewrite without_empty_routes_cons.
    intros [->|Hx]%elem_of_cons.
    + case_decide as Hh; [|by left]. apply IH.
      destruct t as [|z t]; [done|]. injection Hh as ->. by left.
    + case_decide; [by apply IH|right; by apply IH].
  - apply without_empty_routes_head.
  - apply without_empty_routes_last.
Qed.

End without_empty_routes_facts.

(** ** Routes and their customers *)

Section codec_facts.
Implicit Types (sol r g : list node) (routes gs : list (list node)).

(** X7: Every route of [sol2routes] is the depot, a non-empty run of customers
    and the depot: no empty route is returned and no route passes through
    the depot. *)
Theorem sol2routes_customer_runs sol r :
  r ∈ sol2routes sol → ∃ g, customer_run g ∧ r = closed_route g.
Proof.
  unfold sol2routes.
  destruct (bool_decide (sol = []) || (length sol <=? 2));
    [by intros ?%elem_of_nil|].
  intros ([x g] & Hin & Hr)%list_elem_of_omap. simpl in Hr.
  destruct x; [done|]. injection Hr as <-. exists g. split; [|done].
  pose proof (groupby_groups (λ z, Z.eqb z 0) sol) as Hgs.
  rewrite Forall_forall in Hgs. destruct (Hgs _ Hin) as [Hne Hg].
  split; [done|]. eapply Forall_impl; [done|]. simpl.
  intros z Hz. by apply Z.eqb_neq.
Qed.

Lemma sol2routes_customer_runs_witness :
  ∃ g, customer_run g ∧ [0; 4; 9; 0]%Z = closed_route g.
Proof.
  apply (sol2routes_customer_runs [7; 0; 0; 4; 9]%Z [0; 4; 9; 0]%Z).
  vm_compute. apply list_elem_of_In. simpl. tauto.
Defined.

Lemma omap_cons_eq {A B} (f : A → option B) (x : A) (l : list A) :
  omap f (x :: l) = match f x with
                    | Some y => y :: omap f l
                    | None => omap f l
                    end.
Proof. reflexivity. Qed.

Lemma filter_customers_groups (gl : list (bool * list node)) :
  Forall (λ kg, kg.2 ≠ [] ∧ Forall (λ z, Z.eqb z 0 = kg.1) kg.2) gl →
  filter (λ z, z ≠ 0%Z)
         (concat (omap (λ xr : bool * list node,
                          if xr.1 then None else Some ([0%Z] ++ xr.2 ++ [0%Z]))
                       gl))
  = filter (λ z, z ≠ 0%Z) (concat (gl.*2)).
Proof.
  induction 1 as [|[k g] gl [_ Hg] _ IH]; [done|].
  rewrite omap_cons_eq, fmap_cons. cbn [fst snd] in *.
  destruct k.
  - rewrite concat_cons, filter_app, IH.
    replace (filter (λ z, z ≠ 0%Z) g) with (@nil Z); [done|].
    symmetry. clear -Hg. induction Hg as [|z g Hz%Z.eqb_eq _ IH]; [done|].
    by rewrite filter_cons, decide_False by naive_solver.
  - rewrite !concat_cons, !filter_app, IH.
    rewrite (filter_cons _ 0%Z), decide_False by naive_solver.
    rewrite !filter_nil. simpl app. by rewrite (right_id_L [] (++)).
Qed.

(** X8: On a sequence of more than two nodes [sol2routes] keeps every customer
    visit, in order: the customers of the routes, read one route after the
    other, are the customers of the sequence. *)
Theorem sol2routes_keeps_customers sol :
  2 < length sol →
  filter (λ z, z ≠ 0%Z) (concat (sol2routes sol)) = filter (λ z, z ≠ 0%Z) sol.
Proof.
  intros Hlen. unfold sol2routes.
  rewrite bool_decide_false by (intros ->; simpl in Hlen; lia).
  replace (length sol <=? 2) with false by (symmetry; by apply Nat.leb_gt).
  simpl. rewrite filter_customers_groups by apply groupby_groups.
  by rewrite groupby_concat.
Qed.

Lemma sol2routes_keeps_customers_witness :
  filter (λ z, z ≠ 0%Z) (concat (sol2routes [7; 0; 0; 4; 4]%Z))
  = filter (λ z, z ≠ 0%Z) [7; 0; 0; 4; 4]%Z.
Proof. apply (sol2routes_keeps_customers [7; 0; 0; 4; 4]%Z). simpl. lia. Defined.

Lemma routes2sol_step_bare sol g :
  customer_run g → routes2sol_step sol g = sol ++ g ++ [0%Z].
Proof.
  intros [Hne Hg]. destruct g as [|x g]; [done|]. unfold routes2sol_step.
  pose proof Hg as [Hx _]%Forall_cons.
  apply Z.eqb_neq in Hx as ->. rewrite bool_decide_false.
  - by rewrite <- (assoc_L (++)).
  - rewrite last_app. destruct (last (x :: g)) as [y|] eqn:Hl.
    + apply last_Some_elem_of in Hl. rewrite Forall_forall in Hg.
      intros [= ->]. by apply (Hg _ Hl).
    + by apply last_None in Hl.
Qed.

Lemma routes2sol_loop_bare gs : ∀ sol,
  Forall customer_run gs →
  fold_left routes2sol_step gs sol = sol ++ legs gs.
Proof.
  induction gs as [|g gs IH]; intros sol Hgs.
  - simpl. by rewrite (right_id_L [] (++)).
  - apply Forall_cons in Hgs as [Hg Hgs]. simpl fold_left.
    rewrite routes2sol_step_bare, IH, legs_cons by done.
    by rewrite <- !(assoc_L (++)).
Qed.

(** X9: Routes may be given with or without their depot visits: runs of
    customers, bare or closed, assemble to the same tour, and [sol2routes]
    of that tour is the list of the closed routes. *)
Theorem routes2sol_bare_or_closed gs :
  Forall customer_run gs → gs ≠ [] →
  routes2sol gs = Some (tour gs)
  ∧ routes2sol (closed_route <$> gs) = Some (tour gs)
  ∧ sol2routes (tour gs) = closed_route <$> gs.
Proof.
  intros Hgs Hne. split; [|split].
  - destruct gs as [|g gs]; [done|]. unfold routes2sol. f_equal.
    by apply routes2sol_loop_bare.
  - by apply routes2sol_tour.
  - by apply sol2routes_tour.
Qed.

Lemma routes2sol_bare_or_closed_witness :
  routes2sol [[3; 5]; [2]]%Z = Some (tour [[3; 5]; [2]]%Z)
  ∧ routes2sol (closed_route <$> [[3; 5]; [2]]%Z) = Some (tour [[3; 5]; [2]]%Z)
  ∧ sol2routes (tour [[3; 5]; [2]]%Z) = closed_route <$> [[3; 5]; [2]]%Z.
Proof.
  apply (routes2sol_bare_or_closed [[3; 5]; [2]]%Z); [|discriminate].
  repeat (apply Forall_cons; split); try apply Forall_nil_2;
    (split; [discriminate|]);
    repeat (apply Forall_cons; split); try apply Forall_nil_2; lia.
Defined.

Lemma filter_customers_depot sol :
  filter (λ z, z ≠ 0%Z) (0%Z :: sol) = filter (λ z, z ≠ 0%Z) sol.
Proof. rewrite filter_cons, decide_False; [done|]. by intros ?. Qed.

Lemma routes2sol_step_customers sol r :
  filter (λ z, z ≠ 0%Z) (routes2sol_step sol r)
  = filter (λ z, z ≠ 0%Z) sol ++ filter (λ z, z ≠ 0%Z) r.
Proof.
  destruct r as [|r0 r1].
  { change (routes2sol_step sol []) with sol.
    by rewrite filter_nil, (right_id_L [] (++)). }
  unfold routes2sol_step.
  assert (Hnew : filter (λ z, z ≠ 0%Z)
                   (if (r0 =? 0)%Z then sol ++ r1 else sol ++ r0 :: r1)
                 = filter (λ z, z ≠ 0%Z) sol ++ filter (λ z, z ≠ 0%Z) (r0 :: r1)).
  { destruct (Z.eqb_spec r0 0) as [->|Hne]; rewrite filter_app; [|done].
    by rewrite filter_customers_depot. }
  case_bool_decide; [done|].
  rewrite filter_app, Hnew, filter_customers_depot, filter_nil.
  by rewrite (right_id_L [] (++)).
Qed.

Lemma routes2sol_loop_customers routes : ∀ sol,
  filter (λ z, z ≠ 0%Z) (fold_left routes2sol_step routes sol)
  = filter (λ z, z ≠ 0%Z) sol ++ (routes ≫= filter (λ z, z ≠ 0%Z)).
Proof.
  induction routes as [|r routes IH]; intros sol.
  - simpl. by rewrite (right_id_L [] (++)).
  - change (fold_left routes2sol_step (r :: routes) sol)
      with (fold_left routes2sol_step routes (routes2sol_step sol r)).
    rewrite IH, routes2sol_step_customers, bind_cons.
    by rewrite <- (assoc_L (++)).
Qed.

(** X10: [routes2sol] keeps every customer visit of every route, in order, and
    adds none. *)
Theorem routes2sol_keeps_customers routes sol :
  routes2sol routes = Some sol →
  filter (λ z, z ≠ 0%Z) sol = routes ≫= filter (λ z, z ≠ 0%Z).
Proof.
  destruct routes as [|r0 routes0]; [done|]. intros Hsol.
  assert (sol = fold_left routes2sol_step (r0 :: routes0) [0%Z]) as ->
    by (unfold routes2sol in Hsol; congruence).
  rewrite routes2sol_loop_customers. by rewrite filter_customers_depot.
Qed.

Lemma routes2sol_keeps_customers_witness :
  filter (λ z, z ≠ 0%Z) [0; 3; 5; 0; 2; 0]%Z
  = [[0; 3; 5]; []; [2; 0]]%Z ≫= filter (λ z, z ≠ 0%Z).
Proof.
  apply (routes2sol_keeps_customers [[0; 3; 5]; []; [2; 0]]%Z). reflexivity.
Defined.

(** X11: When no route visits the depot twice in a row, neither does the
    assembled solution: consecutive routes are separated by one depot
    visit. *)
Theorem routes2sol_no_double_depot routes sol :
  Forall no_double_depot routes → routes2sol routes = Some sol →
  no_double_depot sol.
Proof.
  intros Hrs. destruct routes as [|r routes]; [done|]. intros [= <-].
  apply (routes2sol_loop_well_formed (r :: routes) [0%Z]); [|done|done].
  simpl. naive_solver.
Qed.

Lemma routes2sol_no_double_depot_witness :
  no_double_depot [0; 3; 0; 2; 0]%Z.
Proof.
  apply (routes2sol_no_double_depot [[3; 0]; [0; 2]]%Z); [|reflexivity].
  repeat (apply Forall_cons; split); try apply Forall_nil_2; simpl;
    repeat split; try done; intros [? ?]; done.
Defined.

Lemma routes2sol_loop_skips_empty routes : ∀ sol,
  fold_left routes2sol_step (filter (λ r, r ≠ []) routes) sol
  = fold_left routes2sol_step routes sol.
Proof.
  induction routes as [|r routes IH]; intros sol; [done|].
  rewrite filter_cons. destruct r as [|r0 r1].
  - rewrite decide_False by naive_solver. apply IH.
  - rewrite decide_True by done. simpl. apply IH.
Qed.

(** X12: Empty routes are skipped: they change the result only in that a route
    list of nothing but empty routes still assembles to [[0]], where the
    empty route list gives [None]. *)
Theorem routes2sol_skips_empty routes :
  routes ≠ [] →
  (filter (λ r, r ≠ []) routes ≠ [] →
   routes2sol (filter (λ r, r ≠ []) routes) = routes2sol routes)
  ∧ (filter (λ r, r ≠ []) routes = [] → routes2sol routes = Some [0%Z]).
Proof.
  intros Hne. destruct routes as [|r routes]; [done|].
  unfold routes2sol at 2 3.
  rewrite <- (routes2sol_loop_skips_empty (r :: routes)). split.
  - intros Hf. by destruct (filter _ (r :: routes)).
  - by intros ->.
Qed.

Lemma routes2sol_skips_empty_witness :
  (filter (λ r, r ≠ []) [[]; [3%Z]; []] ≠ [] →
   routes2sol (filter (λ r, r ≠ []) [[]; [3%Z]; []])
   = routes2sol [[]; [3%Z]; []])
  ∧ (filter (λ r, r ≠ []) [[]; [3%Z]; []] = [] →
     routes2sol [[]; [3%Z]; []] = Some [0%Z]).
Proof. apply (routes2sol_skips_empty [[]; [3%Z]; []]). discriminate. Defined.

End codec_facts.

(** ** Edges of a sequence *)

Section edge_facts.
Implicit Types (sol : list node) (symmetric : bool).

Lemma sol2edgeset_loop_size sol symmetric (l : list nat) :
  ∀ edges : gset (node * node),
    size (fold_left (sol2edgeset_step sol symmetric) l edges)
    ≤ size edges + length l.
Proof.
  induction l as [|i l IH]; intros edges; simpl; [lia|].
  etrans; [apply IH|]. rewrite sol2edgeset_step_edge_at, size_union_alt.
  assert (size (({[edge_at sol symmetric i]} : gset (node * node)) ∖ edges) ≤ 1).
  { rewrite <- (size_singleton (C:=gset (node * node)) (edge_at sol symmetric i)).
    apply subseteq_size. set_solver. }
  lia.
Qed.

(** X13: In either mode the stored pairs are the adjacent pairs of the sequence,
    each in one of its two directions: every stored pair joins two
    neighbours, every two neighbours are joined by a stored pair, and there
    are at most [len(sol) - 1] pairs. *)
Theorem sol2edgeset_adjacent sol symmetric :
  (∀ a b, (a, b) ∈ sol2edgeset sol symmetric →
     ∃ i, (sol !! i = Some a ∧ sol !! S i = Some b)
          ∨ (sol !! i = Some b ∧ sol !! S i = Some a))
  ∧ (∀ i a b, sol !! i = Some a → sol !! S i = Some b →
       (a, b) ∈ sol2edgeset sol symmetric
       ∨ (b, a) ∈ sol2edgeset sol symmetric)
  ∧ size (sol2edgeset sol symmetric) ≤ length sol - 1.
Proof.
  split; [|split].
  - intros a b (i & Hi & Hp)%sol2edgeset_elem_of. exists i.
    assert (Ha : sol !! i = Some (sol !!! i))
      by (apply list_lookup_lookup_total_lt; lia).
    assert (Hb : sol !! S i = Some (sol !!! (i + 1)))
      by (rewrite Nat.add_1_r; apply list_lookup_lookup_total_lt; lia).
    unfold edge_at in Hp. simpl in Hp.
    destruct (symmetric || _); injection Hp as -> ->; auto.
  - intros i a b Ha Hb.
    assert (Hi : S i < length sol) by (by eapply lookup_lt_Some).
    apply list_lookup_total_correct in Ha as Ha'.
    apply list_lookup_total_correct in Hb as Hb'.
    rewrite <- Nat.add_1_r in Hb'.
    assert (Hin : edge_at sol symmetric i ∈ sol2edgeset sol symmetric)
      by (apply sol2edgeset_elem_of; eauto).
    unfold edge_at in Hin. simpl in Hin. rewrite Ha', Hb' in Hin.
    destruct (symmetric || _); auto.
  - unfold sol2edgeset. etrans; [apply sol2edgeset_loop_size|].
    by rewrite size_empty, length_seq.
Qed.

End edge_facts.

(** ** Table lookups *)

Section lookup_facts.

Lemma index_Ok n (z : Z) : indexes n z → ∃ k, Py.index n z = Ok k ∧ k < n.
Proof.
  unfold indexes, Py.index. intros Hz. destruct (decide (0 ≤ z)%Z).
  - rewrite decide_True by lia. eexists. split; [done|lia].
  - rewrite decide_False, decide_True by lia. eexists. split; [done|lia].
Qed.

Lemma index_Raise n (z : Z) : ¬ indexes n z → Py.index n z = Raise IndexError.
Proof.
  unfold indexes, Py.index. intros Hz. by rewrite !decide_False by lia.
Qed.

Lemma getitem_Ok {A} (l : list A) (z : Z) :
  indexes (length l) z → ∃ x, Py.getitem l z = Ok x ∧ x ∈ l.
Proof.
  intros (k & Hk & Hlt)%index_Ok. unfold Py.getitem. rewrite Hk. simpl.
  destruct (lookup_lt_is_Some_2 l k Hlt) as [x Hx]. rewrite Hx.
  exists x. split; [done|]. by eapply list_elem_of_lookup_2.
Qed.

Lemma getitem_Raise {A} (l : list A) (z : Z) :
  ¬ indexes (length l) z → Py.getitem l z = Raise IndexError.
Proof. intros Hz. unfold Py.getitem. by rewrite index_Raise. Qed.

(** The only exception of a lookup is [IndexError]. *)
Lemma getitem_exn {A} (l : list A) (z : Z) e :
  Py.getitem l z = Raise e → e = IndexError.
Proof.
  unfold Py.getitem, Py.index. repeat case_decide; simpl;
    try destruct (l !! _); congruence.
Qed.

Lemma table_get_exn {N} (D : list (list N)) (a b : Z) e :
  table_get D a b = Raise e → e = IndexError.
Proof.
  unfold table_get. destruct (Py.getitem D a) as [row|e'] eqn:E; simpl.
  - apply getitem_exn.
  - intros [= <-]. by eapply getitem_exn.
Qed.

Lemma table_get_square {N} n (D : list (list N)) (a b : Z) :
  square n D →
  (indexes n a ∧ indexes n b → ∃ d, table_get D a b = Ok d)
  ∧ (¬ (indexes n a ∧ indexes n b) → table_get D a b = Raise IndexError).
Proof.
  intros [Hn Hrows]. unfold table_get. subst n.
  destruct (decide (indexes (length D) a)) as [Ha|Ha].
  - destruct (getitem_Ok D a Ha) as (row & -> & Hrow). simpl.
    rewrite Forall_forall in Hrows. specialize (Hrows row Hrow).
    split.
    + intros [_ Hb]. rewrite <- Hrows in Hb.
      destruct (getitem_Ok row b Hb) as (d & -> & _). eauto.
    + intros Hab. apply getitem_Raise. rewrite Hrows. tauto.
  - rewrite getitem_Raise by done. split; [tauto|done].
Qed.

Lemma raised_None {A} (r : result A) : raised r = None → ∃ v, r = Ok v.
Proof. destruct r; [eauto|done]. Qed.

Lemma raised_Some {A} (r : result A) e : raised r = Some e → r = Raise e.
Proof. destruct r; [done|]. by intros [= ->]. Qed.

End lookup_facts.

(** ** Objective: bounds *)

Section objf_bounds_facts.
Context {N : Type} `{Number N}.
Variable D : list (list N).
Implicit Types (l t sol : list node).

Lemma path_cost_exn l e : path_cost D l = Raise e → e = IndexError.
Proof.
  induction l as [|a [|b t] IH]; [by simpl..|]. rewrite path_cost_cons_cons.
  revert IH. generalize (path_cost D (b :: t)). intros pc IH.
  destruct (table_get D a b) as [d|e'] eqn:E; destruct pc as [c|e''];
    simpl; try done; intros [= <-]; by eapply table_get_exn.
Qed.

Lemma path_cost_square n l :
  square n D → 2 ≤ length l →
  (Forall (indexes n) l → ∃ v, path_cost D l = Ok v)
  ∧ (¬ Forall (indexes n) l → path_cost D l = Raise IndexError).
Proof.
  intros Hsq. induction l as [|a [|b t] IH]; [simpl; lia..|]. intros _.
  rewrite path_cost_cons_cons.
  destruct (table_get_square n D a b Hsq) as [Hok Hraise].
  destruct (decide (indexes n a ∧ indexes n b)) as [Hab|Hab].
  - destruct (Hok Hab) as [d ->]. destruct t as [|c t].
    + split; [simpl; eauto|]. intros Hall. exfalso. apply Hall.
      apply Forall_cons. split; [tauto|].
      apply Forall_cons. split; [tauto|apply Forall_nil_2].
    + destruct IH as [IHok IHraise]; [simpl; lia|].
      remember (path_cost D (b :: c :: t)) as pc. split.
      * intros [_ Hbt]%Forall_cons. destruct (IHok Hbt) as [v ->]. simpl. eauto.
      * intros Hall. rewrite IHraise; [done|]. intros Hbt. apply Hall.
        apply Forall_cons. split; [tauto|done].
  - rewrite (Hraise Hab). split; [|done].
    intros [Ha [Hb _]%Forall_cons]%Forall_cons. tauto.
Qed.

(** Whatever the numbers, [objf] raises where the walk along the path
    raises: the lookups are the same, in the same order. *)
Lemma objf_raised sol : raised (objf sol D) = raised (path_cost D sol).
Proof.
  induction sol as [|a [|b t] IH]; [done..|].
  rewrite path_cost_cons_cons. unfold objf in *.
  change (length (a :: b :: t) - 1) with (S (length t)).
  replace (length (b :: t) - 1) with (length t) in IH by (simpl; lia).
  change (seq 1 (S (length t))) with (1 :: seq 2 (length t)).
  change (for_each ?f (1 :: ?l)) with (y ← f 1; ys ← for_each f l; Ok (y :: ys)).
  rewrite (for_each_seq_shift _
             (λ i, table_get D ((b :: t) !!! (i - 1)) ((b :: t) !!! i))).
  - change ((a :: b :: t) !!! (1 - 1)) with a.
    change ((a :: b :: t) !!! 1) with b.
    revert IH. generalize (path_cost D (b :: t)). intros pc.
    destruct (table_get D a b) as [d|e]; [|done]. simpl.
    destruct (for_each _ _) as [ds|e]; destruct pc; simpl; done.
  - intros [|i] Hi; [lia|]. simpl. by rewrite Nat.sub_0_r.
Qed.

(** X14: On a table of [n] rows and columns and a sequence of two nodes or
    more, [objf] returns a value when every node indexes the table, and
    raises [IndexError] otherwise; shorter sequences cost 0 on any table.
    This holds for integer and for float tables alike. *)
Theorem objf_bounds n sol :
  square n D →
  (2 ≤ length sol →
     (Forall (indexes n) sol → ∃ v, objf sol D = Ok v)
     ∧ (¬ Forall (indexes n) sol → objf sol D = Raise IndexError))
  ∧ (length sol ≤ 1 → objf sol D = Ok num_zero).
Proof.
  intros Hsq. split.
  - intros Hlen. destruct (path_cost_square n sol Hsq Hlen) as [Hok Hraise].
    split.
    + intros [v Hv]%Hok. apply raised_None. by rewrite objf_raised, Hv.
    + intros Hr%Hraise. apply raised_Some. by rewrite objf_raised, Hr.
  - destruct sol as [|a [|b t]]; simpl; [done..|lia].
Qed.

End objf_bounds_facts.

(** ** Objective: cuts and reversal on exact numbers *)

Section objf_exact.
Context {N : Type} `{ExactNumber N}.
Variable D : list (list N).
Implicit Types (l t sol : list node).

#[local] Existing Instances num_add_assoc num_add_comm num_add_0_l num_add_0_r.

(** X15: On a table of numbers that add exactly (integers), the objective of
    a path is the sum of the objectives of its two parts when it is cut at
    a node, which then ends one part and starts the other. *)
Theorem objf_cut l (m : node) t :
  objf (l ++ m :: t) D
  = c1 ← objf (l ++ [m]) D; c2 ← objf (m :: t) D; Ok (num_add c1 c2).
Proof. rewrite !objf_path_cost. apply path_cost_app. Qed.

Lemma path_cost_snoc l (a b : node) :
  path_cost D (l ++ [a; b])
  = c ← path_cost D (l ++ [a]); d ← table_get D a b; Ok (num_add c d).
Proof.
  rewrite path_cost_app, (path_cost_cons_cons D a b []).
  change (path_cost D [b]) with (@Ok N num_zero).
  destruct (path_cost D (l ++ [a])) as [c|e]; [|done]. simpl.
  destruct (table_get D a b) as [d|e]; [|done]. simpl.
  by rewrite (right_id num_zero num_add).
Qed.

(** X16: On a table of numbers that add exactly (integers) that is symmetric
    on the nodes of the sequence, the objective does not depend on the
    direction of travel. *)
Theorem objf_reverse sol :
  Forall (λ a, Forall (λ b, table_get D a b = table_get D b a) sol) sol →
  objf (reverse sol) D = objf sol D.
Proof.
  rewrite !objf_path_cost. intros Hsym.
  assert (Hs : ∀ a b, a ∈ sol → b ∈ sol → table_get D a b = table_get D b a).
  { intros a b Ha Hb. rewrite Forall_forall in Hsym.
    specialize (Hsym a Ha). rewrite Forall_forall in Hsym. by apply Hsym. }
  clear Hsym. induction sol as [|a [|b t] IH]; [done..|].
  rewrite path_cost_cons_cons, !reverse_cons, <- (assoc_L (++)).
  simpl app. rewrite path_cost_snoc, <- reverse_cons, IH by set_solver.
  rewrite (Hs b a) by set_solver.
  destruct (table_get D a b) as [d|e] eqn:Ed;
    destruct (path_cost D (b :: t)) as [c|e'] eqn:Ec; simpl; try done.
  - by rewrite (comm num_add).
  - f_equal. apply table_get_exn in Ed as ->. by apply path_cost_exn in Ec.
Qed.

End objf_exact.

Lemma objf_bounds_witness :
  (2 ≤ length [0; 1; 0]%Z →
     (Forall (indexes 2) [0; 1; 0]%Z → ∃ v, objf [0; 1; 0]%Z [[0; 5]; [7; 0]]%Z = Ok v)
     ∧ (¬ Forall (indexes 2) [0; 1; 0]%Z
        → objf [0; 1; 0]%Z [[0; 5]; [7; 0]]%Z = Raise IndexError))
  ∧ (length [0; 1; 0]%Z ≤ 1 → objf [0; 1; 0]%Z [[0; 5]; [7; 0]]%Z = Ok 0%Z).
Proof.
  refine (objf_bounds [[0; 5]; [7; 0]]%Z 2 [0; 1; 0]%Z _).
  split; [reflexivity|]. repeat constructor.
Defined.

Lemma objf_cut_witness :
  objf ([0; 1] ++ 2 :: [0])%Z [[0; 4; 7]; [5; 0; 3]; [6; 2; 0]]%Z
  = c1 ← objf ([0; 1] ++ [2])%Z [[0; 4; 7]; [5; 0; 3]; [6; 2; 0]]%Z;
    c2 ← objf (2 :: [0])%Z [[0; 4; 7]; [5; 0; 3]; [6; 2; 0]]%Z;
    Ok (c1 + c2)%Z.
Proof.
  exact (objf_cut [[0; 4; 7]; [5; 0; 3]; [6; 2; 0]]%Z [0; 1]%Z 2%Z [0]%Z).
Defined.

Lemma objf_reverse_witness :
  objf (reverse [0; 1; 2; 0]%Z) [[0; 4; 7]; [4; 0; 3]; [7; 3; 0]]%Z
  = objf [0; 1; 2; 0]%Z [[0; 4; 7]; [4; 0; 3]; [7; 3; 0]]%Z.
Proof.
  apply (objf_reverse [[0; 4; 7]; [4; 0; 3]; [7; 3; 0]]%Z [0; 1; 2; 0]%Z).
  repeat constructor.
Defined.

(** On a table of floats neither equation holds: with [D[0,1] = 0.1],
    [D[1,2] = 0.2] and [D[2,0] = 0.3] the path [[0,1,2,0]] costs
    [(0.1+0.2)+0.3], its parts [[0,1]] and [[1,2,0]] cost [0.1+(0.2+0.3)],
    and its reverse [(0.3+0.2)+0.1]. *)
Lemma objf_float_rounding :
  objf [0; 1; 2; 0]%Z [[0; 0.1; 0.3]; [0.1; 0; 0.2]; [0.3; 0.2; 0]]%float
  ≠ (c1 ← objf [0; 1]%Z [[0; 0.1; 0.3]; [0.1; 0; 0.2]; [0.3; 0.2; 0]]%float;
     c2 ← objf [1; 2; 0]%Z [[0; 0.1; 0.3]; [0.1; 0; 0.2]; [0.3; 0.2; 0]]%float;
     Ok (num_add c1 c2))
  ∧ objf (reverse [0; 1; 2; 0]%Z)
         [[0; 0.1; 0.3]; [0.1; 0; 0.2]; [0.3; 0.2; 0]]%float
    ≠ objf [0; 1; 2; 0]%Z [[0; 0.1; 0.3]; [0.1; 0; 0.2]; [0.3; 0.2; 0]]%float.
Proof.
  split; intros Heq;
    apply (f_equal (λ r, match r with
                         | Ok x => PrimFloat.eqb x 0.6%float
                         | Raise _ => false
                         end)) in Heq;
    vm_compute in Heq; discriminate.
Qed.

(** ** Demand *)

Lemma for_each_app {A B} (f : A → result B) (l1 l2 : list A) :
  for_each f (l1 ++ l2)
  = ys1 ← for_each f l1; ys2 ← for_each f l2; Ok (ys1 ++ ys2).
Proof.
  induction l1 as [|x l1 IH]; simpl.
  - by destruct (for_each f l2).
  - rewrite IH. destruct (f x) as [y|e]; [|done]. simpl.
    destruct (for_each f l1) as [ys1|e]; [|done]. simpl.
    by destruct (for_each f l2).
Qed.

Section totald_bounds_facts.
Context {N : Type} `{Number N}.
Implicit Types (sol : list node).

(** X17: With a demand vector that is not empty, [totald] returns a value when
    every node indexes the vector and raises [IndexError] otherwise; with
    no demand vector, or an empty one, it is 0 for every sequence.  This
    holds for integer and for float demands alike. *)
Theorem totald_bounds sol (dl : list N) :
  (dl ≠ [] →
     (Forall (indexes (length dl)) sol → ∃ v, totald sol (Some dl) = Ok v)
     ∧ (¬ Forall (indexes (length dl)) sol
        → totald sol (Some dl) = Raise IndexError))
  ∧ totald sol None = Ok num_zero ∧ totald sol (Some []) = Ok num_zero.
Proof.
  split; [|done]. intros Hne. destruct dl as [|d0 dl]; [done|].
  unfold totald. generalize (d0 :: dl). clear. intros dl.
  induction sol as [|z sol [IHok IHraise]]; [split; [by eexists|]|].
  { intros Hall. exfalso. apply Hall. apply Forall_nil_2. }
  simpl for_each. destruct (decide (indexes (length dl) z)) as [Hz|Hz].
  - destruct (getitem_Ok dl z Hz) as (x & -> & _). simpl. split.
    + intros [_ Hsol]%Forall_cons. destruct (IHok Hsol) as [v Hv].
      destruct (for_each _ sol) as [ys|e]; [|done]. simpl. eauto.
    + intros Hall. rewrite Forall_cons in Hall.
      assert (Hsol : ¬ Forall (indexes (length dl)) sol) by tauto.
      specialize (IHraise Hsol).
      by destruct (for_each _ sol) as [ys|e]; simplify_eq/=.
  - rewrite (getitem_Raise dl z Hz). split; [|done].
    by intros [? _]%Forall_cons.
Qed.

End totald_bounds_facts.

Section totald_exact.
Context {N : Type} `{ExactNumber N}.
Implicit Types (l sol g : list node) (d : option (list N)).

#[local] Existing Instances num_add_assoc num_add_comm num_add_0_l num_add_0_r.

Lemma sum_app (xs ys : list N) :
  Py.sum (xs ++ ys) = num_add (Py.sum xs) (Py.sum ys).
Proof. unfold Py.sum. by rewrite fold_left_app, fold_left_add. Qed.

(** With exact numbers the demand of a sequence is the sum of the demands
    of its parts. *)
Lemma totald_app l1 l2 d :
  totald (l1 ++ l2) d
  = c1 ← totald l1 d; c2 ← totald l2 d; Ok (num_add c1 c2).
Proof.
  destruct d as [[|d0 dl]|]; simpl; [by rewrite (left_id num_zero num_add)|
                                     |by rewrite (left_id num_zero num_add)].
  rewrite for_each_app.
  destruct (for_each _ l1) as [ys1|e]; [|done]. simpl.
  destruct (for_each _ l2) as [ys2|e]; [|done]. simpl.
  by rewrite sum_app.
Qed.

Lemma totald_routes_no_demand (routes : list (list node)) d :
  d = None ∨ d = Some [] → totald_routes routes d = Ok num_zero.
Proof.
  intros Hd. unfold totald_routes.
  assert (Hz : ∃ zs, for_each (λ r, totald r d) routes = Ok zs
                     ∧ Py.sum zs = num_zero).
  { induction routes as [|r routes (zs & Hzs & Hsum)]; [by exists []|].
    exists (num_zero :: zs). simpl. rewrite Hzs.
    split; [by destruct Hd as [->| ->]|].
    by rewrite sum_cons, Hsum, (left_id num_zero num_add). }
  destruct Hz as (zs & -> & Hsum). simpl. by rewrite Hsum.
Qed.

Lemma totald_depot (dl : list N) :
  totald [0%Z] (Some (num_zero :: dl)) = Ok num_zero.
Proof.
  simpl. f_equal. unfold Py.sum. simpl. by rewrite (left_id num_zero num_add).
Qed.

Lemma totald_tour gs d :
  depot_demand_zero d →
  totald (tour gs) d = totald_routes (closed_route <$> gs) d.
Proof.
  intros Hd. destruct d as [[|d0 dl]|];
    [by rewrite totald_routes_no_demand by auto| |
     by rewrite totald_routes_no_demand by auto].
  simpl in Hd. subst d0. unfold totald_routes.
  induction gs as [|g gs IH].
  { change (tour []) with [0%Z]. by rewrite totald_depot. }
  unfold tour. rewrite legs_cons, fmap_cons.
  change (0%Z :: g ++ 0%Z :: legs gs) with ((0%Z :: g) ++ tour gs).
  rewrite totald_app, IH.
  change (for_each ?f (?r :: ?l)) with (y ← f r; ys ← for_each f l; Ok (y :: ys)).
  cbv beta. change (closed_route g) with ((0%Z :: g) ++ [0%Z]).
  rewrite (totald_app (0%Z :: g) [0%Z]), totald_depot.
  destruct (totald (0%Z :: g) (Some (num_zero :: dl))) as [c|e]; [|done]. simpl.
  destruct (for_each _ _) as [cs|e]; [|done]. simpl.
  by rewrite sum_cons, (right_id num_zero num_add).
Qed.

(** X18: With demands that add exactly (integers) and no demand at the
    depot, the demand of a depot-bounded solution without doubled depot
    visits is the sum of the demands of its routes. *)
Theorem totald_additive sol d :
  depot_bounded sol → no_double_depot sol → depot_demand_zero d →
  totald sol d = totald_routes (sol2routes sol) d.
Proof.
  intros Hb Hdd Hd. destruct (depot_bounded_tour sol Hb Hdd) as (gs & Hgs & ->).
  rewrite sol2routes_tour by done. by apply totald_tour.
Qed.

End totald_exact.

Lemma totald_bounds_witness :
  (Forall (indexes (length [0; 3; 4]%Z)) [0; 1; 2; 0]%Z
   → ∃ v, totald [0; 1; 2; 0]%Z (Some [0; 3; 4]%Z) = Ok v)
  ∧ (¬ Forall (indexes (length [0; 3; 4]%Z)) [0; 1; 2; 0]%Z
     → totald [0; 1; 2; 0]%Z (Some [0; 3; 4]%Z) = Raise IndexError).
Proof.
  apply (proj1 (totald_bounds [0; 1; 2; 0]%Z [0; 3; 4]%Z)). discriminate.
Defined.

Lemma totald_additive_witness :
  totald [0; 1; 2; 0; 2; 0]%Z (Some [0; 3; 4]%Z)
  = totald_routes (sol2routes [0; 1; 2; 0; 2; 0]%Z) (Some [0; 3; 4]%Z).
Proof.
  apply (totald_additive [0; 1; 2; 0; 2; 0]%Z (Some [0; 3; 4]%Z)).
  - split; reflexivity.
  - simpl. repeat split; intros [? ?]; done.
  - reflexivity.
Defined.

(** With float demands the equation fails: for [d = [0.0, 0.1, 0.2, 0.3]]
    the solution [[0,1,0,2,3,0]] and its routes add the same demands in
    different groups. *)
Lemma totald_float_rounding :
  totald [0; 1; 0; 2; 3; 0]%Z (Some [0; 0.1; 0.2; 0.3]%float)
  ≠ totald_routes (sol2routes [0; 1; 0; 2; 3; 0]%Z)
                  (Some [0; 0.1; 0.2; 0.3]%float)
  ∧ depot_demand_zero (Some [0; 0.1; 0.2; 0.3]%float).
Proof.
  split; [|reflexivity]. intros Heq.
  apply (f_equal (λ r, match r with
                       | Ok x => PrimFloat.eqb x 0.6%float
                       | Raise _ => false
                       end)) in Heq.
  vm_compute in Heq. discriminate.
Qed.

(** ** Ordered set: single operations *)

Section ordered_set_operations.
Context {A : Type} `{EqDecision A}.
Implicit Types (d c : list A) (s : t A) (x y : A).

Lemma filter_ne_absent d x : x ∉ d → filter (λ y, y ≠ x) d = d.
Proof.
  intros Hx. apply filter_all, Forall_forall. intros y Hy ->. done.
Qed.

(** X19: [remove] raises [KeyError] on an element that is not in the set;
    otherwise it takes the element out and leaves the others in their
    order. *)
Theorem remove_spec s x :
  (x ∉ iter s → remove s x = Raise KeyError)
  ∧ (x ∈ iter s →
     ∃ s', remove s x = Ok s'
           ∧ iter s' = filter (λ y, y ≠ x) (iter s)
           ∧ (x ∉ iter s')
           ∧ (NoDup (iter s) → S (len s') = len s)).
Proof.
  unfold remove, dict_delitem, iter, len. split; intros Hx.
  - by rewrite decide_False.
  - rewrite decide_True by done. simpl. eexists. split; [done|]. simpl.
    split; [done|]. split.
    + rewrite list_elem_of_filter. naive_solver.
    + intros Hnd. by apply length_filter_ne.
Qed.

(** X20: [add] of an element that is not in the set puts it last; a following
    [remove] of it restores the iteration order. *)
Theorem add_absent_appends s x :
  x ∉ iter s →
  iter (add s x) = iter s ++ [x]
  ∧ len (add s x) = S (len s)
  ∧ ∃ s', remove (add s x) x = Ok s' ∧ iter s' = iter s.
Proof.
  unfold iter, len, add, remove, dict_delitem, dict_setitem. simpl.
  intros Hx. rewrite decide_False by done. split; [done|].
  split; [rewrite length_app; simpl; lia|].
  rewrite decide_True by set_solver. simpl. eexists. split; [done|]. simpl.
  rewrite filter_app, filter_ne_absent by done.
  rewrite filter_cons, decide_False by naive_solver.
  by rewrite filter_nil, (right_id_L [] (++)).
Qed.

(** X21: An element that is removed and added again moves to the end. *)
Theorem remove_add_moves_last s x :
  x ∈ iter s →
  ∃ s', remove s x = Ok s'
        ∧ iter (add s' x) = filter (λ y, y ≠ x) (iter s) ++ [x].
Proof.
  unfold iter, remove, dict_delitem. intros Hx.
  rewrite decide_True by done. simpl. eexists. split; [done|].
  unfold add, dict_setitem. simpl. rewrite decide_False; [done|].
  rewrite list_elem_of_filter. naive_solver.
Qed.

Lemma fold_left_dict_pop c : ∀ d,
  fold_left dict_pop c d = filter (λ x, x ∉ c) d.
Proof.
  induction c as [|y c IH]; intros d; simpl.
  - symmetry. apply filter_all, Forall_forall. intros x _. apply not_elem_of_nil.
  - rewrite IH. unfold dict_pop. rewrite list_filter_filter.
    apply list_filter_iff. intros x. rewrite not_elem_of_cons. naive_solver.
Qed.

(** X22: [difference_update] never raises: it keeps, in their order, the
    elements that are not in the collection, and ignores the elements of
    the collection that are not in the set. *)
Theorem difference_update_spec s c :
  iter (difference_update s c) = filter (λ x, x ∉ c) (iter s)
  ∧ (∀ x, x ∈ iter (difference_update s c) ↔ x ∈ iter s ∧ x ∉ c)
  ∧ len (difference_update s c) ≤ len s.
Proof.
  unfold iter, len, difference_update. simpl. rewrite fold_left_dict_pop.
  split; [done|]. split.
  - intros x. rewrite list_elem_of_filter. naive_solver.
  - apply length_filter.
Qed.

Lemma fold_left_dict_setitem_elem_of c : ∀ d x,
  x ∈ fold_left dict_setitem c d ↔ x ∈ d ∨ x ∈ c.
Proof.
  induction c as [|y c IH]; intros d x; simpl.
  - rewrite elem_of_nil. naive_solver.
  - rewrite IH, dict_setitem_elem_of, elem_of_cons. naive_solver.
Qed.

Lemma fold_left_dict_setitem_NoDup c : ∀ d,
  NoDup (d ++ c) → fold_left dict_setitem c d = d ++ c.
Proof.
  induction c as [|y c IH]; intros d Hnd; simpl.
  - by rewrite (right_id_L [] (++)).
  - unfold dict_setitem at 2. rewrite decide_False.
    + rewrite IH; rewrite <- (assoc_L (++)); done.
    + apply NoDup_app in Hnd as (_ & Hd & _). intros Hy.
      apply (Hd y Hy). by left.
Qed.

(** X23: A set built from a collection holds the elements of the collection,
    each once; built from a collection without repetitions it iterates in
    the order of the collection. *)
Theorem init_spec c :
  NoDup (iter (init c))
  ∧ (∀ x, x ∈ iter (init c) ↔ x ∈ c)
  ∧ (NoDup c → iter (init c) = c).
Proof.
  unfold iter, init. simpl. split; [apply dict_fromkeys_NoDup|]. split.
  - intros x. unfold dict_fromkeys. rewrite fold_left_dict_setitem_elem_of.
    rewrite elem_of_nil. naive_solver.
  - intros Hc. by apply (fold_left_dict_setitem_NoDup c []).
Qed.

End ordered_set_operations.

Lemma remove_spec_witness :
  ∃ s', remove (init [4; 7; 9]%Z) 7%Z = Ok s'
        ∧ iter s' = filter (λ y, y ≠ 7%Z) (iter (init [4; 7; 9]%Z))
        ∧ (7%Z ∉ iter s')
        ∧ (NoDup (iter (init [4; 7; 9]%Z)) → S (len s') = len (init [4; 7; 9]%Z)).
Proof.
  apply (proj2 (remove_spec (init [4; 7; 9]%Z) 7%Z)).
  vm_compute. apply list_elem_of_In. simpl. tauto.
Defined.

Lemma add_absent_appends_witness :
  iter (add (init [4; 7]%Z) 9%Z) = iter (init [4; 7]%Z) ++ [9%Z]
  ∧ len (add (init [4; 7]%Z) 9%Z) = S (len (init [4; 7]%Z))
  ∧ ∃ s', remove (add (init [4; 7]%Z) 9%Z) 9%Z = Ok s'
          ∧ iter s' = iter (init [4; 7]%Z).
Proof.
  apply (add_absent_appends (init [4; 7]%Z) 9%Z).
  vm_compute. intros Hin%list_elem_of_In. simpl in Hin. intuition discriminate.
Defined.

Lemma remove_add_moves_last_witness :
  ∃ s', remove (init [4; 7; 9]%Z) 4%Z = Ok s'
        ∧ iter (add s' 4%Z)
          = filter (λ y, y ≠ 4%Z) (iter (init [4; 7; 9]%Z)) ++ [4%Z].
Proof.
  apply (remove_add_moves_last (init [4; 7; 9]%Z) 4%Z).
  vm_compute. apply list_elem_of_In. simpl. tauto.
Defined.

(** ** Ordered set: indexed reads *)

Section ordered_set_index.
Context {A : Type} `{EqDecision A}.
Implicit Types (c : list A) (s : t A) (x : A) (i : Z).

(** X24: On a set whose index list is absent or up to date, an indexed read
    follows iteration order: index [i] from the front, a negative index
    from the back, [IndexError] outside; the read leaves the iteration
    order as it is and the index list up to date. *)
Theorem getitem_follows_iteration s i :
  coherent s →
  iter (getitem s i).2 = iter s
  ∧ keylist (getitem s i).2 = Some (iter s)
  ∧ ((0 ≤ i < Z.of_nat (len s))%Z →
     ∃ x, (getitem s i).1 = Ok x ∧ iter s !! Z.to_nat i = Some x)
  ∧ ((- Z.of_nat (len s) ≤ i < 0)%Z →
     ∃ x, (getitem s i).1 = Ok x
          ∧ iter s !! Z.to_nat (Z.of_nat (len s) + i) = Some x)
  ∧ (¬ indexes (len s) i → (getitem s i).1 = Raise IndexError).
Proof.
  intros Hs. unfold getitem, iter, len. simpl.
  assert (match keylist s with None => ods s | Some kl => kl end = ods s) as ->.
  { by destruct Hs as [-> | ->]. }
  split; [done|]. split; [done|]. unfold Py.getitem, Py.index.
  split; [|split].
  - intros Hi. rewrite decide_True by done. simpl.
    destruct (lookup_lt_is_Some_2 (ods s) (Z.to_nat i)) as [x Hx]; [lia|].
    rewrite Hx. eauto.
  - intros Hi. rewrite decide_False, decide_True by lia. simpl.
    destruct (lookup_lt_is_Some_2 (ods s)
                (Z.to_nat (Z.of_nat (length (ods s)) + i))) as [x Hx]; [lia|].
    rewrite Hx. eauto.
  - unfold indexes. intros Hi. by rewrite !decide_False by lia.
Qed.

(** X25: Which operations keep the index list absent or up to date: every read,
    removal and bulk removal, and an [add] made while no index list is
    built or of a new element to a set that is not empty. *)
Theorem coherent_preserved s x i c :
  coherent (init c)
  ∧ (coherent (getitem s i).2 ↔ coherent s)
  ∧ (∀ s', remove s x = Ok s' → coherent s')
  ∧ coherent (difference_update s c)
  ∧ (coherent s → keylist s = None ∨ ((x ∉ iter s) ∧ iter s ≠ []) →
     coherent (add s x)).
Proof.
  split; [by left|]. split; [|split; [|split]].
  - unfold coherent, getitem. simpl. destruct (keylist s) as [kl|]; [done|].
    split; intros _; [by left|by right].
  - intros s'. unfold remove. destruct (dict_delitem _ _); [|done].
    intros [= <-]. by left.
  - by left.
  - unfold coherent, add, iter, dict_setitem. simpl.
    intros Hs Hadd. destruct (keylist s) as [kl|] eqn:Hkl; [|by left].
    destruct Hs as [|[= ->]]; [done|].
    destruct Hadd as [|[Hx Hne]]; [done|]. right.
    rewrite decide_False by done. by destruct (ods s).
Qed.

(** X26: An [add] that follows an indexed read can leave the index list out of
    date.  Adding an element that is already in the set appends it to the
    index list a second time, so the index [len] reads that element where
    the set has no such position.  And after a read on the empty set the
    index list stays empty when an element is added, so index 0 raises
    [IndexError] on a set of one element. *)
Theorem add_after_read_stale s i x :
  coherent s →
  (x ∈ iter s →
   len (add (getitem s i).2 x) = len s
   ∧ (getitem (add (getitem s i).2 x) (Z.of_nat (len s))).1 = Ok x)
  ∧ (iter s = [] →
     iter (add (getitem s i).2 x) = [x]
     ∧ (getitem (add (getitem s i).2 x) 0).1 = Raise IndexError).
Proof.
  intros Hs. unfold iter, len, add, getitem, dict_setitem. simpl.
  assert (match keylist s with None => ods s | Some kl => kl end = ods s) as ->.
  { by destruct Hs as [-> | ->]. }
  split.
  - intros Hx. rewrite decide_True by done. split; [done|].
    destruct (ods s) as [|k l]; [by apply elem_of_nil in Hx|].
    apply (getitem_middle (k :: l) x []).
  - intros ->. done.
Qed.

End ordered_set_index.

Lemma getitem_follows_iteration_witness :
  iter (getitem (init [4; 7; 9]%Z) (-1)).2 = iter (init [4; 7; 9]%Z)
  ∧ keylist (getitem (init [4; 7; 9]%Z) (-1)).2 = Some (iter (init [4; 7; 9]%Z))
  ∧ ((0 ≤ -1 < Z.of_nat (len (init [4; 7; 9]%Z)))%Z →
     ∃ x, (getitem (init [4; 7; 9]%Z) (-1)).1 = Ok x
          ∧ iter (init [4; 7; 9]%Z) !! Z.to_nat (-1) = Some x)
  ∧ ((- Z.of_nat (len (init [4; 7; 9]%Z)) ≤ -1 < 0)%Z →
     ∃ x, (getitem (init [4; 7; 9]%Z) (-1)).1 = Ok x
          ∧ iter (init [4; 7; 9]%Z)
              !! Z.to_nat (Z.of_nat (len (init [4; 7; 9]%Z)) + -1) = Some x)
  ∧ (¬ indexes (len (init [4; 7; 9]%Z)) (-1)
     → (getitem (init [4; 7; 9]%Z) (-1)).1 = Raise IndexError).
Proof.
  apply (getitem_follows_iteration (init [4; 7; 9]%Z) (-1)%Z). by left.
Defined.

Lemma add_after_read_stale_witness :
  (7%Z ∈ iter (init [4; 7; 9]%Z) →
   len (add (getitem (init [4; 7; 9]%Z) 0).2 7%Z) = len (init [4; 7; 9]%Z)
   ∧ (getitem (add (getitem (init [4; 7; 9]%Z) 0).2 7%Z)
        (Z.of_nat (len (init [4; 7; 9]%Z)))).1 = Ok 7%Z)
  ∧ (iter (init [4; 7; 9]%Z) = [] →
     iter (add (getitem (init [4; 7; 9]%Z) 0).2 7%Z) = [7%Z]
     ∧ (getitem (add (getitem (init [4; 7; 9]%Z) 0).2 7%Z) 0).1
       = Raise IndexError).
Proof.
  apply (add_after_read_stale (init [4; 7; 9]%Z) 0%Z 7%Z). by left.
Defined.

(** ** Ordered set: membership after a run *)

Section ordered_set_runs.
Context {A : Type} `{EqDecision A}.
Implicit Types (c : list A) (s : t A) (h before : list (op A)) (x : A).

Lemma run_present h : ∀ before s s',
  (∀ x, x ∈ ods s ↔ present before x = true) →
  run h s = Ok s' →
  ∀ x, x ∈ ods s' ↔ present (before ++ h) x = true.
Proof.
  induction h as [|o h IH]; intros before s s' Hin Hrun.
  - injection Hrun as <-. by rewrite (right_id_L [] (++)).
  - simpl in Hrun. rewrite (cons_middle o), (assoc_L (++)).
    destruct o as [y|y]; simpl in Hrun.
    + apply (IH _ (add s y)); [|done]. intros x. simpl.
      rewrite dict_setitem_elem_of, present_snoc, Hin.
      case_decide; naive_solver.
    + unfold remove, dict_delitem in Hrun.
      destruct (decide (y ∈ ods s)); [|done]. simpl in Hrun.
      eapply IH; [|done]. intros x. simpl.
      rewrite list_elem_of_filter, present_snoc, Hin.
      case_decide; naive_solver.
Qed.

(** X27: After a construction and a run of [add] and [remove] calls that raises
    nothing, the set iterates each element at most once, and holds exactly
    the elements whose last call was an insertion. *)
Theorem run_members c (ops : list (op A)) s :
  run ops (init c) = Ok s →
  NoDup (iter s) ∧ ∀ x, x ∈ iter s ↔ present (history c ops) x = true.
Proof.
  intros Hrun. split.
  - eapply run_NoDup; [|done]. apply dict_fromkeys_NoDup.
  - assert (Hall : run (history c ops) (init []) = Ok s).
    { unfold history. by rewrite run_app, run_insertions. }
    apply (run_present _ [] (init [])); [|done].
    intros x. simpl. split; [by intros ?%elem_of_nil|done].
Qed.

End ordered_set_runs.

Lemma run_members_witness :
  NoDup (iter {| ods := [2; 1]%Z; keylist := None |})
  ∧ ∀ x, x ∈ iter {| ods := [2; 1]%Z; keylist := None |}
         ↔ present (history [1]%Z [Add 2%Z; Remove 1%Z; Add 1%Z; Add 2%Z]) x
           = true.
Proof.
  apply (run_members [1]%Z [Add 2%Z; Remove 1%Z; Add 1%Z; Add 2%Z]).
  reflexivity.
Defined.

(** ** Neighbour lists *)

Section neighbour_facts.
Implicit Types (D : table) (row : list Z) (nn : list (nat * Z)).

(** X29: The first entry of a neighbour list is a nearest node of its row, and
    among the nearest ones the one of lowest index. *)
Theorem produce_nn_list_nearest_first D NN_D (i j : nat) (d : Z) row rest :
  produce_nn_list D = Ok NN_D →
  D !! i = Some row →
  NN_D !! i = Some ((j, d) :: rest) →
  row !! j = Some d
  ∧ ∀ (j' : nat) (d' : Z), row !! j' = Some d' →
      (d ≤ d')%Z ∧ (d = d' → j ≤ j').
Proof.
  rewrite produce_nn_list_rows. intros [= <-] Hrow.
  rewrite list_lookup_fmap, Hrow. simpl. intros [= Hnn].
  pose proof (sorted_perm snd (Py.enumerate row)) as Hperm.
  pose proof (sorted_nn_lt _ (enumerate_increasing row)) as Hsorted.
  rewrite Hnn in Hperm, Hsorted.
  apply StronglySorted_cons in Hsorted as [Hfirst _]. split.
  - assert (Hin : (j, d) ∈ Py.enumerate row) by (rewrite <- Hperm; by left).
    apply elem_of_lookup_imap_1 in Hin as (k & y & [= -> ->] & Hk). done.
  - intros j' d' Hj'.
    assert (Hin : (j', d') ∈ (j, d) :: rest).
    { rewrite Hperm. by apply (elem_of_lookup_imap_2 pair row). }
    apply elem_of_cons in Hin as [[= -> ->]|Hin]; [lia|].
    rewrite Forall_forall in Hfirst. specialize (Hfirst _ Hin).
    unfold nn_lt in Hfirst. simpl in Hfirst. lia.
Qed.

(** X30: [is_sorted] accepts the distances of every neighbour list. *)
Theorem produce_nn_list_is_sorted D NN_D nn :
  produce_nn_list D = Ok NN_D → nn ∈ NN_D → is_sorted (nn.*2) = true.
Proof.
  rewrite produce_nn_list_rows. intros [= <-].
  intros (row & -> & _)%list_elem_of_fmap.
  apply is_sorted_true.
  eapply StronglySorted_fmap; [|apply sorted_nn_lt, enumerate_increasing].
  unfold nn_lt. intros p q. lia.
Qed.

End neighbour_facts.

Lemma produce_nn_list_nearest_first_witness :
  [0; 5; 2]%Z !! 0 = Some 0%Z
  ∧ ∀ (j' : nat) (d' : Z), [0; 5; 2]%Z !! j' = Some d' →
      (0 ≤ d')%Z ∧ (0%Z = d' → 0 ≤ j').
Proof.
  apply (produce_nn_list_nearest_first
           [[0; 5; 2]; [5; 0; 1]]%Z
           [[(0, 0%Z); (2, 2%Z); (1, 5%Z)]; [(1, 0%Z); (2, 1%Z); (0, 5%Z)]]
           0 0 0%Z [0; 5; 2]%Z [(2, 2%Z); (1, 5%Z)]); reflexivity.
Defined.

Lemma produce_nn_list_is_sorted_witness :
  is_sorted ([(1, 0%Z); (2, 1%Z); (0, 5%Z)].*2) = true.
Proof.
  apply (produce_nn_list_is_sorted
           [[0; 5; 2]; [5; 0; 1]]%Z
           [[(0, 0%Z); (2, 2%Z); (1, 5%Z)]; [(1, 0%Z); (2, 1%Z); (0, 5%Z)]]);
    [reflexivity|].
  apply list_elem_of_In. simpl. tauto.
Defined.
